(** * yawal: a write-ahead log (package [wal])

    A shallow embedding of the Go package: offsets, chunks and their text
    encoding, segments, the in-memory and directory sinks, the logger and
    the replay reader, followed by the properties of the specification.

    Conventions.
    - Go's [int64] and [uint64] are [Z] with the wrap-around written out
      ([int64] and [uint64] below); [int] is 64 bits wide.
    - [[]byte] and [string] are [list byte].
    - A [*Segment] is an address into a store of segments (the Go heap),
      so that the sharing between a sink, a logger and a reader is kept.
    - Go code that can panic, or loop, runs in the monad [M]. *)

From Stdlib Require Import ZArith Lia List Bool.
From Stdlib Require Import Strings.Byte.
From Stdlib Require Import Strings.String.
From stdpp Require Import base list option.
Import ListNotations.

Open Scope Z_scope.

(** ** Machine integers *)

Definition int64 (z : Z) : Z := (z + 2^63) mod 2^64 - 2^63.
Definition uint64 (z : Z) : Z := z mod 2^64.
Definition int32 (z : Z) : Z := (z + 2^31) mod 2^32 - 2^31.
Definition uint8 (z : Z) : Z := z mod 2^8.

Definition in_int64 (z : Z) : Prop := - 2^63 <= z < 2^63.
Definition in_uint64 (z : Z) : Prop := 0 <= z < 2^64.

Definition MaxInt64 : Z := 2^63 - 1.
Definition MinInt64 : Z := - 2^63.

(** ** Package [time] (the part [Offset] uses)

    [time.Time] keeps a wall-clock word and a seconds word; [Unix]
    normalises a (seconds, nanoseconds) pair, and [Before] and [Equal]
    compare the two words. *)

Module time.

Record Time := mkTime { wall : Z (* uint64 *); ext : Z (* int64 *) }.

Definition hasMonotonic : Z := Z.shiftl 1 63.
Definition nsecMask : Z := Z.shiftl 1 30 - 1.
Definition nsecShift : Z := 30.
Definition unixToInternal : Z :=
  (1969 * 365 + 1969 / 4 - 1969 / 100 + 1969 / 400) * 86400.
Definition wallToInternal : Z :=
  (1884 * 365 + 1884 / 4 - 1884 / 100 + 1884 / 400) * 86400.

Definition unixTime (sec nsec : Z) : Time :=
  mkTime (uint64 nsec) (int64 (sec + unixToInternal)).

(** [func Unix(sec int64, nsec int64) Time]; Go's [/] truncates. *)
Definition Unix (sec nsec : Z) : Time :=
  if (nsec <? 0) || (nsec >=? 1000000000) then
    let n := Z.quot nsec 1000000000 in
    let sec := int64 (sec + n) in
    let nsec := int64 (nsec - int64 (n * 1000000000)) in
    if nsec <? 0
    then unixTime (int64 (sec - 1)) (int32 (int64 (nsec + 1000000000)))
    else unixTime sec (int32 nsec)
  else unixTime sec (int32 nsec).

Definition sec (t : Time) : Z :=
  if negb (Z.land (wall t) hasMonotonic =? 0)
  then int64 (wallToInternal
              + int64 (Z.shiftr (uint64 (Z.shiftl (wall t) 1)) (nsecShift + 1)))
  else ext t.

Definition nsec (t : Time) : Z := int32 (Z.land (wall t) nsecMask).

Definition Before (t u : Time) : bool :=
  if negb (Z.land (Z.land (wall t) (wall u)) hasMonotonic =? 0)
  then ext t <? ext u
  else
    let ts := sec t in
    let us := sec u in
    (ts <? us) || ((ts =? us) && (nsec t <? nsec u)).

Definition Equal (t u : Time) : bool :=
  if negb (Z.land (Z.land (wall t) (wall u)) hasMonotonic =? 0)
  then ext t =? ext u
  else (sec t =? sec u) && (nsec t =? nsec u).

End time.

(** ** Offsets (offset.go) *)

Definition Offset := Z. (* int64 *)

Definition ZeroOffset : Offset := 0.

(** [func (o Offset) Before(b Offset) bool] *)
Definition Offset_Before (o b : Offset) : bool :=
  time.Before (time.Unix 0 o) (time.Unix 0 b).

(** [func (o Offset) After(b Offset) bool]: the body calls [Before]. *)
Definition Offset_After (o b : Offset) : bool :=
  time.Before (time.Unix 0 o) (time.Unix 0 b).

(** [func (o Offset) Equal(b Offset) bool] *)
Definition Offset_Equal (o b : Offset) : bool :=
  time.Equal (time.Unix 0 o) (time.Unix 0 b).

(** [func (o Offset) Within(a, b Offset) bool] *)
Definition Offset_Within (o a b : Offset) : bool :=
  let n := o in (a <=? n) && (n <=? b).

(** ** Bytes *)

Definition byte_to_Z (b : byte) : Z := Z.of_N (Byte.to_N b).

(** Go's conversion [byte(v)]: the low eight bits. *)
Definition byte_of_Z (z : Z) : byte :=
  match Byte.of_N (Z.to_N (z mod 256)) with
  | Some b => b
  | None => x00
  end.

(** [[]byte("...")] *)
Definition bytes_of_string (s : string) : list byte := list_byte_of_string s.

(** [make([]byte, n)] *)
Definition make_bytes (n : Z) : list byte := replicate (Z.to_nat n) x00.

(** [len(p)] as an [int]. *)
Definition len {A} (l : list A) : Z := Z.of_nat (length l).

(** ** Errors

    Go's [error] values: the package's sentinels, [io.EOF], the errors of
    [strconv] and [encoding/base64], and the wrappers of
    [github.com/pkg/errors].  [None : option error] is [nil].  Two errors
    are [==] in Go when they are the same sentinel. *)

Inductive strconv_err := ErrSyntax | ErrRange.

Inductive error :=
| ErrNotEnoughSpace
| ErrSegmentFull
| ErrTooBig
| ErrLoggerClosed
| io_EOF
| errors_New (msg : string)
| errors_Wrap (cause : error) (msg : string)
| errors_Wrapf (cause : error) (format : string) (arg : Z)
| NumError (func : string) (num : list byte) (err : strconv_err)
| CorruptInputError (pos : Z)
| PathError (op : string) (path : list byte).

(** [errors.Cause] *)
Fixpoint errors_Cause (e : error) : error :=
  match e with
  | errors_Wrap c _ => errors_Cause c
  | errors_Wrapf c _ _ => errors_Cause c
  | _ => e
  end.

(** [err == ErrNotEnoughSpace], [err == io.EOF] and [err ==
    ErrLoggerClosed]: identity with a sentinel. *)
Definition is_ErrNotEnoughSpace (e : error) : bool :=
  match e with ErrNotEnoughSpace => true | _ => false end.
Definition is_EOF (e : error) : bool :=
  match e with io_EOF => true | _ => false end.
Definition is_ErrLoggerClosed (e : error) : bool :=
  match e with ErrLoggerClosed => true | _ => false end.

(** ** Results of Go code that may panic or loop *)

Inductive Res (A : Type) : Type :=
| Ok (a : A)
| Panic
| Diverge.
Arguments Ok {A} a.
Arguments Panic {A}.
Arguments Diverge {A}.

Definition res_bind {A B} (r : Res A) (k : A -> Res B) : Res B :=
  match r with
  | Ok a => k a
  | Panic => Panic
  | Diverge => Diverge
  end.

(** ** Package [encoding/binary], little endian *)

Module binary.

(** [binary.LittleEndian.PutUint64(b, v)]: the eight bytes written. *)
Definition PutUint64 (v : Z) : list byte :=
  [ byte_of_Z v;
    byte_of_Z (Z.shiftr v 8);
    byte_of_Z (Z.shiftr v 16);
    byte_of_Z (Z.shiftr v 24);
    byte_of_Z (Z.shiftr v 32);
    byte_of_Z (Z.shiftr v 40);
    byte_of_Z (Z.shiftr v 48);
    byte_of_Z (Z.shiftr v 56) ].

(** [binary.LittleEndian.Uint64(b)]; panics when [b] is shorter than
    eight bytes. *)
Definition Uint64 (b : list byte) : Res Z :=
  match b with
  | b0 :: b1 :: b2 :: b3 :: b4 :: b5 :: b6 :: b7 :: _ =>
      Ok (Z.lor (byte_to_Z b0)
         (Z.lor (Z.shiftl (byte_to_Z b1) 8)
         (Z.lor (Z.shiftl (byte_to_Z b2) 16)
         (Z.lor (Z.shiftl (byte_to_Z b3) 24)
         (Z.lor (Z.shiftl (byte_to_Z b4) 32)
         (Z.lor (Z.shiftl (byte_to_Z b5) 40)
         (Z.lor (Z.shiftl (byte_to_Z b6) 48)
                (Z.shiftl (byte_to_Z b7) 56))))))))
  | _ => Panic
  end.

End binary.

(** ** Package [strconv], base 10 and 64 bits *)

Module strconv.

Definition digit (d : Z) : byte := byte_of_Z (48 + d).

(** The decimal digits of [u], most significant first, in front of
    [acc]; twenty digits are enough for a [uint64]. *)
Fixpoint formatBits (fuel : nat) (u : Z) (acc : list byte) : list byte :=
  match fuel with
  | O => acc
  | S fuel' =>
      let acc' := digit (u mod 10) :: acc in
      if u <? 10 then acc' else formatBits fuel' (u / 10) acc'
  end.

(** [strconv.FormatInt(i, 10)] *)
Definition FormatInt (i : Z) : list byte :=
  if i <? 0
  then x2d :: formatBits 20 (uint64 (- i)) []
  else formatBits 20 (uint64 i) [].

Definition maxUint64 : Z := 2^64 - 1.

(** The loop of [strconv.ParseUint(s, 10, 64)] from the accumulator
    [n]: a character that is no decimal digit is a syntax error, an
    overflow a range error (with the value [maxUint64]). *)
Fixpoint parseDigits (s : list byte) (n : Z) : Z * option strconv_err :=
  match s with
  | [] => (n, None)
  | c :: s' =>
      let c := byte_to_Z c in
      if (48 <=? c) && (c <=? 57) then
        let d := c - 48 in
        if n >=? maxUint64 / 10 + 1 then (maxUint64, Some ErrRange)
        else
          let n := uint64 (n * 10) in
          let n1 := uint64 (n + d) in
          if (n1 <? n) || (n1 >? maxUint64) then (maxUint64, Some ErrRange)
          else parseDigits s' n1
      else (0, Some ErrSyntax)
  end.

Definition ParseUint (s : list byte) : Z * option strconv_err :=
  match s with
  | [] => (0, Some ErrSyntax)
  | _ => parseDigits s 0
  end.

(** [strconv.ParseInt(s, 10, 64)] *)
Definition ParseInt (s : list byte) : Z * option error :=
  match s with
  | [] => (0, Some (NumError "ParseInt" s ErrSyntax))
  | c :: s' =>
      let neg := Byte.eqb c x2d in
      let s1 := if Byte.eqb c x2b || Byte.eqb c x2d then s' else s in
      let '(un, err) := ParseUint s1 in
      match err with
      | Some ErrSyntax => (0, Some (NumError "ParseInt" s ErrSyntax))
      | _ =>
          let cutoff := 2^63 in
          if negb neg && (un >=? cutoff)
          then (int64 (cutoff - 1), Some (NumError "ParseInt" s ErrRange))
          else if neg && (un >? cutoff)
          then (int64 (- int64 cutoff), Some (NumError "ParseInt" s ErrRange))
          else
            let n := int64 un in
            (if neg then int64 (- n) else n, None)
      end
  end.

End strconv.

(** ** Package [encoding/base64], [RawStdEncoding] (no padding) *)

Module base64.

Definition encodeStd : list byte :=
  bytes_of_string
    "ABCDEFGHIJKLMNOPQRSTUVWXYZabcdefghijklmnopqrstuvwxyz0123456789+/".

(** [enc.encode[i]] *)
Definition encode (i : Z) : byte := nth (Z.to_nat i) encodeStd x00.

Fixpoint index_of (b : byte) (l : list byte) (i : Z) : Z :=
  match l with
  | [] => 255
  | c :: l' => if Byte.eqb b c then i else index_of b l' (i + 1)
  end.

(** [enc.decodeMap[b]]: the position of [b] in the alphabet, or [0xff]. *)
Definition decodeMap (b : byte) : Z := index_of b encodeStd 0.

Definition EncodedLen (n : Z) : Z := (n * 8 + 5) / 6.
Definition DecodedLen (n : Z) : Z := n * 6 / 8.

Definition sextet (val shift : Z) : byte :=
  encode (Z.land (Z.shiftr val shift) 63).

(** [enc.Encode(dst, src)]: the bytes written to [dst]. *)
Fixpoint Encode (src : list byte) : list byte :=
  match src with
  | [] => []
  | [a] =>
      let val := Z.shiftl (byte_to_Z a) 16 in
      [sextet val 18; sextet val 12]
  | [a; b] =>
      let val := Z.lor (Z.shiftl (byte_to_Z a) 16) (Z.shiftl (byte_to_Z b) 8) in
      [sextet val 18; sextet val 12; sextet val 6]
  | a :: b :: c :: rest =>
      let val := Z.lor (Z.lor (Z.shiftl (byte_to_Z a) 16)
                              (Z.shiftl (byte_to_Z b) 8)) (byte_to_Z c) in
      sextet val 18 :: sextet val 12 :: sextet val 6 :: sextet val 0
        :: Encode rest
  end.

(** The end of [decodeQuantum]: the bytes of the [dlen] sextets in
    [dbuf] (missing ones are zero); [dlen - 1] bytes come out. *)
Definition quantum (dbuf : list Z) : list byte :=
  let d := fun i => nth i dbuf 0 in
  let val := Z.lor (Z.lor (Z.lor (Z.shiftl (d 0%nat) 18) (Z.shiftl (d 1%nat) 12))
                          (Z.shiftl (d 2%nat) 6)) (d 3%nat) in
  take (length dbuf - 1)
       [byte_of_Z (Z.shiftr val 16); byte_of_Z (Z.shiftr val 8); byte_of_Z val].

(** [enc.Decode(dst, src)] read as one pass over [src] from position
    [si], with the sextets of the current quantum in [dbuf]: line
    breaks are skipped, any other byte outside the alphabet is
    corrupt, and so is an input that ends one sextet into a quantum.
    The result is the bytes written to [dst] and the error. *)
Fixpoint decode (src : list byte) (si : Z) (dbuf : list Z)
  : list byte * option error :=
  match src with
  | [] =>
      match dbuf with
      | [] => ([], None)
      | [_] => ([], Some (CorruptInputError (si - 1)))
      | _ => (quantum dbuf, None)
      end
  | c :: rest =>
      let out := decodeMap c in
      if negb (out =? 255) then
        let dbuf' := dbuf ++ [out] in
        if (length dbuf' =? 4)%nat then
          let '(bs, err) := decode rest (si + 1) [] in
          (quantum dbuf' ++ bs, err)
        else decode rest (si + 1) dbuf'
      else if Byte.eqb c x0a || Byte.eqb c x0d then decode rest (si + 1) dbuf
      else ([], Some (CorruptInputError si))
  end.

Definition Decode (src : list byte) : list byte * option error :=
  decode src 0 [].

End base64.

(** ** Package [bytes] *)

Module bytes.

Fixpoint index_from (p : list byte) (c : byte) (i : Z) : Z :=
  match p with
  | [] => -1
  | b :: p' => if Byte.eqb b c then i else index_from p' c (i + 1)
  end.

(** [bytes.Index(p, []byte{c})] *)
Definition Index (p : list byte) (c : byte) : Z := index_from p c 0.

(** [bytes.Split(p, []byte{sep})]: the pieces between the separators,
    one more than there are separators. *)
Fixpoint Split (p : list byte) (sep : byte) : list (list byte) :=
  match p with
  | [] => [[]]
  | b :: p' =>
      if Byte.eqb b sep then [] :: Split p' sep
      else match Split p' sep with
           | [] => [[b]]
           | r :: rs => (b :: r) :: rs
           end
  end.

End bytes.

(** ** Chunks (chunk.go) *)

Definition chunkOffsetSize : Z := 8.
Definition chunkSeparator : byte := x3a.

(** [type chunk []byte]: eight bytes of offset, then the data. *)
Definition chunk := list byte.

(** [func newChunkOffset(data []byte, o Offset) *chunk] *)
Definition newChunkOffset (data : list byte) (o : Offset) : chunk :=
  binary.PutUint64 (uint64 o) ++ data.

(** [func (c chunk) Offset() Offset] *)
Definition chunk_Offset (c : chunk) : Res Offset :=
  res_bind (binary.Uint64 (take (Z.to_nat chunkOffsetSize) c))
           (fun u => Ok (int64 u)).

(** [func (c chunk) Data() []byte]; [c[8:]] panics on a shorter chunk. *)
Definition chunk_Data (c : chunk) : Res (list byte) :=
  if len c <? chunkOffsetSize then Panic
  else Ok (drop (Z.to_nat chunkOffsetSize) c).

(** [func (c chunk) MarshalText() ([]byte, error)] *)
Definition chunk_MarshalText (c : chunk) : Res (list byte * option error) :=
  res_bind (chunk_Offset c) (fun o =>
  let offset := strconv.FormatInt o in
  let offset := offset ++ [chunkSeparator] in
  res_bind (chunk_Data c) (fun d =>
  let data := base64.Encode d in
  Ok (offset ++ data, None))).

(** [func (c *chunk) UnmarshalText(p []byte) error]: the new value of
    [*c] (from the old one, [c]) and the error. *)
Definition chunk_UnmarshalText (c : chunk) (p : list byte)
  : chunk * option error :=
  let sep := bytes.Index p chunkSeparator in
  if sep =? -1 then (c, Some (errors_New "no chunk separator"))
  else
    let body := drop (Z.to_nat (sep + 1)) p in
    let size := chunkOffsetSize + base64.DecodedLen (len body) in
    let c := make_bytes size in
    let '(off, err) := strconv.ParseInt (take (Z.to_nat sep) p) in
    match err with
    | Some e => (c, Some (errors_Wrap e "parse offset"))
    | None =>
        let c := binary.PutUint64 (uint64 off) ++ drop 8 c in
        let '(bs, err) := base64.Decode body in
        let c := take 8 c ++ bs ++ drop (length bs) (drop 8 c) in
        match err with
        | Some e => (c, Some (errors_Wrap e "unmarshal text"))
        | None => (c, None)
        end
    end.

(** ** The store, the clock and the monad of Go code

    A world holds the segments allocated so far (a [*Segment] is an
    index into [heap], or [nil]), the state of the sink the logger and
    the readers share, and the wall clock: [clock k] is what the [k]-th
    call of [time.Now().UnixNano()] returns. *)

Record Segment := mkSegment {
  size : Z;              (* uint64: maximum size of the segment, in bytes *)
  chunks : list chunk;
  chunkIdx : Z           (* int: index of the chunk returned by Chunk() *)
}.

Definition SegPtr := option nat.

Record World (S : Type) := mkWorld {
  heap : list Segment;
  sink : S;
  clock : nat -> Z;
  ticks : nat
}.
Arguments mkWorld {S} _ _ _ _.
Arguments heap {S} _.
Arguments sink {S} _.
Arguments clock {S} _.
Arguments ticks {S} _.

Definition M (S A : Type) : Type := World S -> Res (A * World S).

Definition ret {S A} (a : A) : M S A := fun w => Ok (a, w).

Definition bind {S A B} (m : M S A) (k : A -> M S B) : M S B :=
  fun w =>
    match m w with
    | Ok (a, w') => k a w'
    | Panic => Panic
    | Diverge => Diverge
    end.

Notation "'do' x <- m ;; k" := (bind m (fun x => k))
  (at level 10, x binder, m at level 99, k at level 200, only parsing).
Notation "'run' m ;; k" := (bind m (fun _ => k))
  (at level 10, m at level 99, k at level 200, only parsing).

Definition panic {S A} : M S A := fun _ => Panic.
Definition diverge {S A} : M S A := fun _ => Diverge.

Definition lift {S A} (r : Res A) : M S A :=
  fun w => match r with Ok a => Ok (a, w) | Panic => Panic | Diverge => Diverge end.

(** [l[i]] on a slice: out of range panics. *)
Definition index {A} (l : list A) (i : Z) : Res A :=
  if i <? 0 then Panic
  else match l !! Z.to_nat i with
       | Some x => Ok x
       | None => Panic
       end.

Section Store.
Context {S : Type}.

(** Reading through a [*Segment]; [nil] panics. *)
Definition load (p : SegPtr) : M S Segment :=
  fun w =>
    match p with
    | None => Panic
    | Some a => match heap w !! a with
                | Some s => Ok (s, w)
                | None => Panic
                end
    end.

(** Writing through a [*Segment]. *)
Definition store (p : SegPtr) (s : Segment) : M S unit :=
  fun w =>
    match p with
    | None => Panic
    | Some a =>
        if decide (a < length (heap w))%nat
        then Ok (tt, mkWorld (<[a := s]> (heap w)) (sink w) (clock w) (ticks w))
        else Panic
    end.

(** [&Segment{...}] and [new(Segment)]: a fresh address. *)
Definition alloc (s : Segment) : M S SegPtr :=
  fun w =>
    Ok (Some (length (heap w)),
        mkWorld (heap w ++ [s]) (sink w) (clock w) (ticks w)).

Definition get_sink : M S S := fun w => Ok (sink w, w).

Definition put_sink (s : S) : M S unit :=
  fun w => Ok (tt, mkWorld (heap w) s (clock w) (ticks w)).

(** [NewOffset()], that is [Offset(time.Now().UnixNano())]. *)
Definition NewOffset : M S Offset :=
  fun w =>
    Ok (int64 (clock w (ticks w)),
        mkWorld (heap w) (sink w) (clock w) (Datatypes.S (ticks w))).

(** ** Segments (segment.go) *)

Definition DefaultSegmentSize : Z := 16777216.

(** [func NewSegmentSize(size uint64) *Segment] *)
Definition NewSegmentSize (size : Z) : M S SegPtr :=
  alloc {| size := size; chunks := []; chunkIdx := -1 |}.

(** [func NewSegment() *Segment] *)
Definition NewSegment : M S SegPtr := NewSegmentSize DefaultSegmentSize.

(** [func (s *Segment) remaining() int64] *)
Definition remaining (s : Segment) : Z :=
  let n := fold_left (fun n c => uint64 (n + uint64 (len c))) (chunks s) 0 in
  int64 (uint64 (size s - n)).

(** [func (s *Segment) write(p []byte) (int, error)] *)
Definition Segment_write (s : SegPtr) (p : list byte) : M S (Z * option error) :=
  do o <- NewOffset ;;
  do seg <- load s ;;
  run store s {| size := size seg;
                 chunks := chunks seg ++ [newChunkOffset p o];
                 chunkIdx := chunkIdx seg |} ;;
  ret (len p, None).

(** [func (s *Segment) Write(p []byte) (int, error)] *)
Definition Segment_Write (s : SegPtr) (p : list byte) : M S (Z * option error) :=
  if len p =? 0 then ret (0, None)
  else
    do seg <- load s ;;
    if len p >? remaining seg then ret (0, Some ErrNotEnoughSpace)
    else Segment_write s p.

(** [func (s *Segment) Chunk() chunk] *)
Definition Segment_Chunk (s : SegPtr) : M S chunk :=
  do seg <- load s ;;
  lift (index (chunks seg) (chunkIdx seg)).

(** [func (s *Segment) Next() bool] *)
Definition Segment_Next (s : SegPtr) : M S bool :=
  do seg <- load s ;;
  if chunkIdx seg + 1 =? len (chunks seg) then ret false
  else
    run store s {| size := size seg;
                   chunks := chunks seg;
                   chunkIdx := chunkIdx seg + 1 |} ;;
    ret true.

(** [func (s *Segment) CurrentReadOffset() Offset] *)
Definition Segment_CurrentReadOffset (s : SegPtr) : M S Offset :=
  do seg <- load s ;;
  do c <- lift (index (chunks seg) (chunkIdx seg)) ;;
  lift (chunk_Offset c).

(** The loop of [ReadFrom] over the rows from row [i] on: the chunks
    appended to [acc], and the error that stopped it. *)
Fixpoint readRows (rows : list (list byte)) (i : Z) (acc : list chunk)
  : list chunk * option error :=
  match rows with
  | [] => (acc, None)
  | row :: rows' =>
      if len row =? 0 then readRows rows' (i + 1) acc
      else
        let '(c, err) := chunk_UnmarshalText [] row in
        match err with
        | Some e => (acc, Some (errors_Wrapf e "unmarshal chunk %d" i))
        | None => readRows rows' (i + 1) (acc ++ [c])
        end
  end.

(** [func (s *Segment) ReadFrom(r io.Reader) (int64, error)], for a
    reader that yields the bytes [p] and no error. *)
Definition Segment_ReadFrom (s : SegPtr) (p : list byte) : M S (Z * option error) :=
  do seg <- load s ;;
  if negb (len (chunks seg) =? 0)
  then ret (0, Some (errors_New "read from: will not load into populated segment"))
  else
    let rows := bytes.Split p x0a in
    let '(cs, err) := readRows rows 0 [] in
    run store s {| size := size seg; chunks := cs; chunkIdx := chunkIdx seg |} ;;
    match err with
    | Some e => ret (0, Some e)
    | None => ret (len p, None)
    end.

(** The loop of [WriteTo]: the bytes written to [w] and their count. *)
Fixpoint writeChunks (cs : list chunk) (n : Z) (w : list byte)
  : Res (Z * list byte) :=
  match cs with
  | [] => Ok (n, w)
  | c :: cs' =>
      res_bind (chunk_MarshalText c) (fun '(p, _) =>
      let line := p ++ [x0a] in
      writeChunks cs' (int64 (n + len line)) (w ++ line))
  end.

(** [func (s *Segment) WriteTo(w io.Writer) (int64, error)], for a
    writer that appends to the buffer [w] and takes every byte: the
    result and the buffer afterwards. *)
Definition Segment_WriteTo (s : SegPtr) (w : list byte)
  : M S ((Z * option error) * list byte) :=
  do seg <- load s ;;
  if len (chunks seg) =? 0 then ret ((0, None), w)
  else
    do '(n, w') <- lift (writeChunks (chunks seg) 0 w) ;;
    ret ((n, None), w').

(** [func (s *Segment) Chunks() int] *)
Definition Segment_Chunks (s : SegPtr) : M S Z :=
  do seg <- load s ;; ret (len (chunks seg)).

(** [func (s *Segment) Size() int64] *)
Definition Segment_Size (s : SegPtr) : M S Z :=
  do seg <- load s ;;
  ret (fold_left (fun n c => int64 (n + len c)) (chunks seg) 0).

Fixpoint encodedSize (cs : list chunk) (n : Z) : Res Z :=
  match cs with
  | [] => Ok n
  | c :: cs' =>
      res_bind (chunk_MarshalText c) (fun '(p, _) =>
      encodedSize cs' (int64 (n + int64 (len p + 1))))
  end.

(** [func (s *Segment) EncodedSize() (int64, error)] *)
Definition Segment_EncodedSize (s : SegPtr) : M S (Z * option error) :=
  do seg <- load s ;;
  do n <- lift (encodedSize (chunks seg) 0) ;;
  ret (n, None).

(** [func (s *Segment) Remaining() int64] *)
Definition Segment_Remaining (s : SegPtr) : M S Z :=
  do seg <- load s ;; ret (remaining seg).

(** [func (s *Segment) Limits() (oldest, newest Offset)] *)
Definition Segment_Limits (s : SegPtr) : M S (Offset * Offset) :=
  do seg <- load s ;;
  match chunks seg with
  | [] => ret (ZeroOffset, ZeroOffset)
  | [c] => do offset <- lift (chunk_Offset c) ;; ret (offset, offset)
  | _ =>
      do c0 <- lift (index (chunks seg) 0) ;;
      do oldest <- lift (chunk_Offset c0) ;;
      do cn <- lift (index (chunks seg) (len (chunks seg) - 1)) ;;
      do newest <- lift (chunk_Offset cn) ;;
      ret (oldest, newest)
  end.

(** The loop of [Truncate] from index [i]: the index of the first
    chunk for which [c.Offset().After(offset)] holds, if any. *)
Fixpoint truncateScan (cs : list chunk) (offset : Offset) (i : Z)
  : Res (option Z) :=
  match cs with
  | [] => Ok None
  | c :: cs' =>
      res_bind (chunk_Offset c) (fun o =>
      if Offset_After o offset then Ok (Some i)
      else truncateScan cs' offset (i + 1))
  end.

(** [func (s *Segment) Truncate(offset Offset)] *)
Definition Segment_Truncate (s : SegPtr) (offset : Offset) : M S unit :=
  do seg <- load s ;;
  do found <- lift (truncateScan (chunks seg) offset 0) ;;
  match found with
  | None => ret tt
  | Some i =>
      store s {| size := size seg;
                 chunks := drop (Z.to_nat i) (chunks seg);
                 chunkIdx := if chunkIdx seg >? 0
                             then chunkIdx seg - (i + 1)
                             else chunkIdx seg |}
  end.

End Store.

(** ** Sinks (sink.go)

    [type Sink interface]: what the logger and the readers call.  The
    methods act on the world, whose [sink] component is the state of the
    one sink they share.  ([Analyze] is called by neither and only
    matters to a sink with storage of its own.) *)

Class Sink (S : Type) := {
  Sink_LoadSegment : Offset -> M S (SegPtr * option error);
  Sink_WriteSegment : SegPtr -> M S (option error);
  Sink_Close : M S (option error);
  Sink_Offsets : M S (Offset * Offset);
  Sink_NumSegments : M S Z;
  Sink_Truncate : Offset -> M S (option error)
}.

(** ** The in-memory sink (sink_mem.go) *)

Record MemorySink := mkMemorySink { segments : list SegPtr }.

(** [func NewMemorySink() ( *MemorySink, error)] *)
Definition NewMemorySink : MemorySink := mkMemorySink [].

(** [func (s *MemorySink) Analyze() error] *)
Definition MemorySink_Analyze : M MemorySink (option error) := ret None.

(** The loop of [LoadSegment] over the segments. *)
Fixpoint loadScan (segs : list SegPtr) (offset : Offset)
  : M MemorySink (SegPtr * option error) :=
  match segs with
  | [] => ret (None, Some io_EOF)
  | seg :: segs' =>
      do '(a, b) <- Segment_Limits seg ;;
      if Offset_Within offset a b || Offset_Before offset a
      then ret (seg, None)
      else loadScan segs' offset
  end.

(** [func (s *MemorySink) LoadSegment(offset Offset) ( *Segment, error)] *)
Definition MemorySink_LoadSegment (offset : Offset)
  : M MemorySink (SegPtr * option error) :=
  do s <- get_sink ;;
  if Offset_Equal offset ZeroOffset then
    do seg <- lift (index (segments s) 0) ;;
    ret (seg, None)
  else loadScan (segments s) offset.

(** [func (s *MemorySink) WriteSegment(seg *Segment) error] *)
Definition MemorySink_WriteSegment (seg : SegPtr) : M MemorySink (option error) :=
  do '(first, last) <- Segment_Limits seg ;;
  if Offset_Equal first ZeroOffset && Offset_Equal last ZeroOffset
  then ret None
  else
    do s <- get_sink ;;
    run put_sink (mkMemorySink (segments s ++ [seg])) ;;
    ret None.

(** [func (s *MemorySink) Offsets() (first, last Offset)] *)
Definition MemorySink_Offsets : M MemorySink (Offset * Offset) :=
  do s <- get_sink ;;
  do seg0 <- lift (index (segments s) 0) ;;
  do '(first, _) <- Segment_Limits seg0 ;;
  do segn <- lift (index (segments s) (len (segments s) - 1)) ;;
  do '(_, last) <- Segment_Limits segn ;;
  ret (first, last).

(** [func (s *MemorySink) NumSegments() int] *)
Definition MemorySink_NumSegments : M MemorySink Z :=
  do s <- get_sink ;; ret (len (segments s)).

(** The first loop of [Truncate]: the number of leading segments whose
    newest offset is before [offset], counted from [removed]. *)
Fixpoint countExpired (segs : list SegPtr) (offset : Offset) (removed : Z)
  : M MemorySink Z :=
  match segs with
  | [] => ret removed
  | seg :: segs' =>
      do '(_, e) <- Segment_Limits seg ;;
      if Offset_Before e offset
      then countExpired segs' offset (removed + 1)
      else ret removed
  end.

(** [func (s *MemorySink) Truncate(offset Offset) error] *)
Definition MemorySink_Truncate (offset : Offset) : M MemorySink (option error) :=
  do s <- get_sink ;;
  do removed <- countExpired (segments s) offset 0 ;;
  run (if removed >? 0
       then put_sink (mkMemorySink (drop (Z.to_nat removed) (segments s)))
       else ret tt) ;;
  do s <- get_sink ;;
  do seg0 <- lift (index (segments s) 0) ;;
  do '(a, b) <- Segment_Limits seg0 ;;
  run (if Offset_Within offset a b
       then Segment_Truncate seg0 offset
       else ret tt) ;;
  ret None.

(** [func (s *MemorySink) Close() error] *)
Definition MemorySink_Close : M MemorySink (option error) := ret None.

#[global] Instance MemorySink_Sink : Sink MemorySink := {
  Sink_LoadSegment := MemorySink_LoadSegment;
  Sink_WriteSegment := MemorySink_WriteSegment;
  Sink_Close := MemorySink_Close;
  Sink_Offsets := MemorySink_Offsets;
  Sink_NumSegments := MemorySink_NumSegments;
  Sink_Truncate := MemorySink_Truncate
}.

(** ** The logger (logger.go) and the reader (reader.go) *)

Record Logger := mkLogger {
  segSize : Z;        (* uint64 *)
  seg : SegPtr;       (* the currently-active segment *)
  closed : bool
}.

Record Reader := mkReader {
  r_off : Offset;         (* off: the last-known offset *)
  r_seg : SegPtr;         (* seg: current segment being read *)
  r_err : option error    (* err *)
}.

(** [type Option func( *Logger) error] *)
Definition Option := Logger -> Logger * option error.

(** [func SegmentSize(n uint64) Option] *)
Definition SegmentSize (n : Z) : Option :=
  fun l => (mkLogger n (seg l) (closed l), None).

Section Logging.
Context {S : Type} `{Sink S}.

Fixpoint applyOptions (options : list Option) (l : Logger)
  : Logger * option error :=
  match options with
  | [] => (l, None)
  | option :: options' =>
      let '(l', err) := option l in
      match err with
      | Some e => (l', Some (errors_Wrap e "applying option"))
      | None => applyOptions options' l'
      end
  end.

(** [func New(sink Sink, options ...Option) ( *Logger, error)], for the
    sink of the world (which is not [nil]). *)
Definition New (options : list Option) : M S (option Logger * option error) :=
  let logger := mkLogger DefaultSegmentSize None false in
  let '(logger, err) := applyOptions options logger in
  match err with
  | Some e => ret (None, Some e)
  | None =>
      do p <- NewSegmentSize (segSize logger) ;;
      ret (Some (mkLogger (segSize logger) p (closed logger)), None)
  end.

(** [func (l *Logger) Offsets() (first, last Offset)] *)
Definition Logger_Offsets (l : Logger) : M S (Offset * Offset) := Sink_Offsets.

(** [func (l *Logger) flush() error] *)
Definition Logger_flush (l : Logger) : M S (option error * Logger) :=
  do err <- Sink_WriteSegment (seg l) ;;
  match err with
  | Some e => ret (Some (errors_Wrap e "write segment"), l)
  | None =>
      do p <- NewSegmentSize (segSize l) ;;
      ret (None, mkLogger (segSize l) p (closed l))
  end.

(** The body of [Write] from the label [WriteData]; each [goto] takes
    one unit of fuel. *)
Fixpoint writeData (fuel : nat) (l : Logger) (p : list byte)
  : M S (option error * Logger) :=
  match fuel with
  | O => diverge
  | Datatypes.S fuel' =>
      do '(_, err) <- Segment_Write (seg l) p ;;
      match err with
      | Some e =>
          if is_ErrNotEnoughSpace e then
            do '(ferr, l') <- Logger_flush l ;;
            match ferr with
            | Some e' => ret (Some e', l')
            | None => writeData fuel' l' p
            end
          else ret (None, l)
      | None => ret (None, l)
      end
  end.

(** [func (l *Logger) Write(p []byte) (int, error)] *)
Definition Logger_Write (fuel : nat) (l : Logger) (p : list byte)
  : M S ((Z * option error) * Logger) :=
  if uint64 (len p) >? segSize l then ret ((0, Some ErrTooBig), l)
  else
    do '(err, l') <- (if closed l then ret (Some ErrLoggerClosed, l)
                      else writeData fuel l p) ;;
    match err with
    | Some e => ret ((0, Some (errors_Wrap e "write")), l')
    | None => ret ((len p, None), l')
    end.

(** [func (l *Logger) Close() error] *)
Definition Logger_Close (l : Logger) : M S (option error * Logger) :=
  if closed l then ret (None, l)
  else
    do '(ferr, l') <- Logger_flush l ;;
    match ferr with
    | Some e => ret (Some (errors_Wrap e "flush"), l')
    | None =>
        do cerr <- Sink_Close ;;
        match cerr with
        | Some e => ret (Some (errors_Wrap e "close sink"), l')
        | None => ret (None, mkLogger (segSize l') (seg l') true)
        end
    end.

(** [func (l *Logger) Flush() error] *)
Definition Logger_Flush (l : Logger) : M S (option error * Logger) :=
  if closed l then ret (Some ErrLoggerClosed, l)
  else
    do '(ferr, l') <- Logger_flush l ;;
    match ferr with
    | Some e => ret (Some (errors_Wrap e "flush"), l')
    | None => ret (None, l')
    end.

(** [func (l *Logger) Truncate(offset Offset) error] *)
Definition Logger_Truncate (l : Logger) (offset : Offset) : M S (option error) :=
  do err <- Sink_Truncate offset ;;
  match err with
  | Some e => ret (Some (errors_Wrap e "truncate wal"))
  | None =>
      run Segment_Truncate (seg l) offset ;;
      ret None
  end.

(** [func NewReaderOffset(sink Sink, offset Offset) *Reader] *)
Definition NewReaderOffset (offset : Offset) : Reader :=
  mkReader offset None None.

(** [func NewReader(sink Sink) *Reader] *)
Definition NewReader : Reader := NewReaderOffset ZeroOffset.

(** [func (r *Reader) loadSegment(off Offset) ( *Segment, error)] *)
Definition Reader_loadSegment (off : Offset) : M S (SegPtr * option error) :=
  do '(seg, err) <- Sink_LoadSegment off ;;
  match err with
  | Some e => if is_EOF e then ret (None, None) else ret (None, Some e)
  | None => ret (seg, None)
  end.

(** The body of [Next] from the label [NextDataChunk]; each [goto]
    takes one unit of fuel. *)
Fixpoint nextDataChunk (fuel : nat) (r : Reader) : M S (bool * Reader) :=
  match fuel with
  | O => diverge
  | Datatypes.S fuel' =>
      do more <- Segment_Next (r_seg r) ;;
      if more then
        do o <- Segment_CurrentReadOffset (r_seg r) ;;
        ret (true, mkReader o (r_seg r) (r_err r))
      else
        do '(seg, err) <- Reader_loadSegment (int64 (r_off r + 1)) ;;
        match err with
        | Some e => ret (false, mkReader (r_off r) (r_seg r) (Some e))
        | None =>
            match seg with
            | None => ret (false, r)
            | Some _ => nextDataChunk fuel' (mkReader (r_off r) seg (r_err r))
            end
        end
  end.

(** [func (r *Reader) Next() bool] *)
Definition Reader_Next (fuel : nat) (r : Reader) : M S (bool * Reader) :=
  match r_seg r with
  | None =>
      do '(seg, err) <- Reader_loadSegment (r_off r) ;;
      match err with
      | Some e => ret (false, mkReader (r_off r) (r_seg r) (Some e))
      | None => nextDataChunk fuel (mkReader (r_off r) seg (r_err r))
      end
  | Some _ => nextDataChunk fuel r
  end.

(** [func (r *Reader) Data() []byte] *)
Definition Reader_Data (r : Reader) : M S (list byte) :=
  do c <- Segment_Chunk (r_seg r) ;;
  lift (chunk_Data c).

(** [func (r *Reader) Offset() Offset] *)
Definition Reader_Offset (r : Reader) : Offset := r_off r.

(** [func (r *Reader) Error() error] *)
Definition Reader_Error (r : Reader) : option error :=
  match r_err r with
  | Some e => Some (errors_Wrap e "wal reader")
  | None => None
  end.

End Logging.

(** ** Files, checksums and the directory sink (sink_dir.go)

    The directory is a finite map from file names to contents.  Creating
    a file always succeeds (and replaces the file); opening or removing a
    file fails when there is none. *)

Fixpoint bytes_eqb (a b : list byte) : bool :=
  match a, b with
  | [], [] => true
  | x :: a', y :: b' => Byte.eqb x y && bytes_eqb a' b'
  | _, _ => false
  end.

Definition Disk := list (list byte * list byte).

Module os.

Fixpoint lookup (name : list byte) (d : Disk) : option (list byte) :=
  match d with
  | [] => None
  | (n, c) :: d' => if bytes_eqb n name then Some c else lookup name d'
  end.

Fixpoint delete (name : list byte) (d : Disk) : Disk :=
  match d with
  | [] => []
  | (n, c) :: d' => if bytes_eqb n name then delete name d' else (n, c) :: delete name d'
  end.

(** [os.Open(name)] followed by reading the file to its end. *)
Definition Open (name : list byte) (d : Disk) : list byte * option error :=
  match lookup name d with
  | Some c => (c, None)
  | None => ([], Some (PathError "open" name))
  end.

(** [os.Create(name)], the writes to the file, and closing it. *)
Definition Create (name content : list byte) (d : Disk) : Disk :=
  (name, content) :: delete name d.

(** [os.Remove(name)] *)
Definition Remove (name : list byte) (d : Disk) : Disk * option error :=
  match lookup name d with
  | Some _ => (delete name d, None)
  | None => (d, Some (PathError "remove" name))
  end.

End os.

Module filepath.
(** [filepath.Join(dir, name)], for a clean [dir] and a base name. *)
Definition Join (dir name : list byte) : list byte := dir ++ x2f :: name.
End filepath.

Module crc64.

Definition ISO : Z := 15564440312192434176. (* 0xD800000000000000 *)

Fixpoint shift8 (n : nat) (crc : Z) : Z :=
  match n with
  | O => crc
  | Datatypes.S n' =>
      shift8 n' (if Z.land crc 1 =? 1
                 then Z.lxor (Z.shiftr crc 1) ISO
                 else Z.shiftr crc 1)
  end.

(** [crc64.MakeTable(crc64.ISO)[i]] *)
Definition table (i : Z) : Z := shift8 8 i.

(** [crc64.Update(crc, tab, p)] *)
Definition Update (crc : Z) (p : list byte) : Z :=
  let crc := Z.lxor crc (2^64 - 1) in
  let crc := fold_left
               (fun crc v =>
                  Z.lxor (table (Z.lxor (Z.land crc 255) (byte_to_Z v)))
                         (Z.shiftr crc 8))
               p crc in
  Z.lxor crc (2^64 - 1).

(** [h.Sum(nil)] after writing [p]: the checksum, big endian. *)
Definition Sum (p : list byte) : list byte :=
  rev (binary.PutUint64 (Update 0 p)).

End crc64.

Module hex.

Definition hextable : list byte := bytes_of_string "0123456789abcdef".

(** [hex.EncodeToString(src)] *)
Definition EncodeToString (src : list byte) : list byte :=
  flat_map (fun b => [nth (Z.to_nat (Z.shiftr (byte_to_Z b) 4)) hextable x00;
                      nth (Z.to_nat (Z.land (byte_to_Z b) 15)) hextable x00]) src.

End hex.

Record DirectorySink := mkDirectorySink {
  dir : list byte;
  ds_segments : list (Offset * Offset);   (* segments [][2]Offset *)
  segPaths : list (list byte);            (* the basename of each segment file *)
  disk : Disk                             (* the files of the directory *)
}.

(** [func (o Offset) String() string] *)
Definition Offset_String (o : Offset) : list byte := strconv.FormatInt o.

(** [func fmtSegFileName(seg *Segment) string] *)
Definition fmtSegFileName {S} (seg : SegPtr) : M S (list byte) :=
  do '(start, end_) <- Segment_Limits seg ;;
  ret (Offset_String start ++ x2d :: Offset_String end_).

Definition get_disk : M DirectorySink Disk :=
  do ds <- get_sink ;; ret (disk ds).

Definition put_disk (d : Disk) : M DirectorySink unit :=
  do ds <- get_sink ;;
  put_sink (mkDirectorySink (dir ds) (ds_segments ds) (segPaths ds) d).

(** [func (ds *DirectorySink) loadSegment(name string) ( *Segment, error)] *)
Definition DirectorySink_loadSegment (name : list byte)
  : M DirectorySink (SegPtr * option error) :=
  do ds <- get_sink ;;
  let '(f, err) := os.Open (filepath.Join (dir ds) name) (disk ds) in
  match err with
  | Some e => ret (None, Some (errors_Wrap e "open segment file"))
  | None =>
      do seg <- alloc {| size := 0; chunks := []; chunkIdx := 0 |} ;;
      do '(_, err) <- Segment_ReadFrom seg f ;;
      match err with
      | Some e => ret (None, Some (errors_Wrap e "load segment"))
      | None => ret (seg, None)
      end
  end.

(** The loop of [LoadSegment] over the offsets, from index [i]. *)
Fixpoint dirScan (segs : list (Offset * Offset)) (offset : Offset) (i : Z)
  : M DirectorySink (SegPtr * option error) :=
  match segs with
  | [] => ret (None, Some io_EOF)
  | offs :: segs' =>
      if Offset_Within offset (fst offs) (snd offs) then
        do ds <- get_sink ;;
        do name <- lift (index (segPaths ds) i) ;;
        DirectorySink_loadSegment name
      else dirScan segs' offset (i + 1)
  end.

(** [func (ds *DirectorySink) LoadSegment(offset Offset) ( *Segment, error)] *)
Definition DirectorySink_LoadSegment (offset : Offset)
  : M DirectorySink (SegPtr * option error) :=
  do ds <- get_sink ;;
  if Offset_Equal offset ZeroOffset then
    if len (segPaths ds) =? 0
    then ret (None, Some (errors_New "no segments to load"))
    else
      do name <- lift (index (segPaths ds) 0) ;;
      DirectorySink_loadSegment name
  else dirScan (ds_segments ds) offset 0.

(** [func (ds *DirectorySink) writeChecksum(segmentName string, chksum
    hash.Hash) error], for the checksum of the bytes [content]. *)
Definition DirectorySink_writeChecksum (segmentName content : list byte)
  : M DirectorySink (option error) :=
  do d <- get_disk ;;
  run put_disk (os.Create (segmentName ++ bytes_of_string ".CHECKSUM")
                          (hex.EncodeToString (crc64.Sum content)) d) ;;
  ret None.

(** [func (ds *DirectorySink) writeSegment(seg *Segment) error] *)
Definition DirectorySink_writeSegment (seg : SegPtr) : M DirectorySink (option error) :=
  do ds <- get_sink ;;
  do base <- fmtSegFileName seg ;;
  let name := filepath.Join (dir ds) base in
  do '(_, content) <- Segment_WriteTo seg [] ;;
  do d <- get_disk ;;
  run put_disk (os.Create name content d) ;;
  do err <- DirectorySink_writeChecksum name content ;;
  match err with
  | Some e => ret (Some (errors_Wrap e "write checksum"))
  | None => ret None
  end.

(** [func (ds *DirectorySink) WriteSegment(seg *Segment) error] *)
Definition DirectorySink_WriteSegment (seg : SegPtr) : M DirectorySink (option error) :=
  do '(start, end_) <- Segment_Limits seg ;;
  if (start =? ZeroOffset) && (end_ =? ZeroOffset) then ret None
  else
    do err <- DirectorySink_writeSegment seg ;;
    match err with
    | Some e => ret (Some e)
    | None =>
        do name <- fmtSegFileName seg ;;
        do ds <- get_sink ;;
        run put_sink (mkDirectorySink (dir ds)
                        (ds_segments ds ++ [(start, end_)])
                        (segPaths ds ++ [name])
                        (disk ds)) ;;
        ret None
    end.

(** [func (ds *DirectorySink) Close() error] *)
Definition DirectorySink_Close : M DirectorySink (option error) := ret None.

(** [func (ds *DirectorySink) Offsets() (oldest, newest Offset)] *)
Definition DirectorySink_Offsets : M DirectorySink (Offset * Offset) :=
  do ds <- get_sink ;;
  let lastSeg := len (ds_segments ds) - 1 in
  do first <- lift (index (ds_segments ds) 0) ;;
  do last <- lift (index (ds_segments ds) lastSeg) ;;
  ret (fst first, snd last).

(** [func (ds *DirectorySink) NumSegments() int] *)
Definition DirectorySink_NumSegments : M DirectorySink Z :=
  do ds <- get_sink ;; ret (len (ds_segments ds)).

(** [func (ds *DirectorySink) deleteSegmentFile(name string) error] *)
Definition DirectorySink_deleteSegmentFile (name : list byte)
  : M DirectorySink (option error) :=
  do ds <- get_sink ;;
  let name := filepath.Join (dir ds) name in
  do d <- get_disk ;;
  let '(d, err) := os.Remove name d in
  run put_disk d ;;
  match err with
  | Some e => ret (Some (errors_Wrap e "rm"))
  | None =>
      let '(d, err) := os.Remove (name ++ bytes_of_string ".CHECKSUM") d in
      run put_disk d ;;
      match err with
      | Some e => ret (Some (errors_Wrap e "rm checksum"))
      | None => ret None
      end
  end.

(** The first loop of [Truncate], from index [i]: the number of segments
    removed and the error that stopped it. *)
Fixpoint deleteExpired (segs : list (Offset * Offset)) (offset : Offset)
    (i removed : Z) : M DirectorySink (Z * option error) :=
  match segs with
  | [] => ret (removed, None)
  | offsets :: segs' =>
      if Offset_Before (snd offsets) offset then
        do ds <- get_sink ;;
        do name <- lift (index (segPaths ds) i) ;;
        do err <- DirectorySink_deleteSegmentFile name ;;
        match err with
        | Some e => ret (removed, Some e)
        | None => deleteExpired segs' offset (i + 1) (removed + 1)
        end
      else ret (removed, None)
  end.

(** [func (ds *DirectorySink) Truncate(offset Offset) error] *)
Definition DirectorySink_Truncate (offset : Offset) : M DirectorySink (option error) :=
  do ds <- get_sink ;;
  do '(removed, err) <- deleteExpired (ds_segments ds) offset 0 0 ;;
  run (if removed >? 0 then
         do ds <- get_sink ;;
         put_sink (mkDirectorySink (dir ds)
                     (drop (Z.to_nat removed) (ds_segments ds))
                     (drop (Z.to_nat removed) (segPaths ds))
                     (disk ds))
       else ret tt) ;;
  match err with
  | Some e => ret (Some (errors_Wrap e "delete segment file"))
  | None =>
      do ds <- get_sink ;;
      do first <- lift (index (ds_segments ds) 0) ;;
      if Offset_Before (fst first) offset && Offset_After (snd first) offset then
        do name <- lift (index (segPaths ds) 0) ;;
        do '(seg, err) <- DirectorySink_loadSegment name ;;
        match err with
        | Some e => ret (Some (errors_Wrap e "truncate segment"))
        | None =>
            run Segment_Truncate seg offset ;;
            do err <- DirectorySink_writeSegment seg ;;
            match err with
            | Some e => ret (Some (errors_Wrap e "write truncated segment"))
            | None =>
                do '(start, _) <- Segment_Limits seg ;;
                do name <- fmtSegFileName seg ;;
                do ds <- get_sink ;;
                do first <- lift (index (ds_segments ds) 0) ;;
                do _ <- lift (index (segPaths ds) 0) ;;
                run put_sink (mkDirectorySink (dir ds)
                                (<[0%nat := (start, snd first)]> (ds_segments ds))
                                (<[0%nat := name]> (segPaths ds))
                                (disk ds)) ;;
                ret None
            end
        end
      else ret None
  end.

#[global] Instance DirectorySink_Sink : Sink DirectorySink := {
  Sink_LoadSegment := DirectorySink_LoadSegment;
  Sink_WriteSegment := DirectorySink_WriteSegment;
  Sink_Close := DirectorySink_Close;
  Sink_Offsets := DirectorySink_Offsets;
  Sink_NumSegments := DirectorySink_NumSegments;
  Sink_Truncate := DirectorySink_Truncate
}.

(** * Definitions used to state and prove the properties *)

Definition is_digit (c : byte) : Prop := 48 <= byte_to_Z c <= 57.

(** The value read by [strconv.parseDigits] when nothing overflows. *)
Fixpoint parse_val (s : list byte) (n : Z) : Z :=
  match s with
  | [] => n
  | c :: s' => parse_val s' (n * 10 + (byte_to_Z c - 48))
  end.

(** A chunk holds at least its eight bytes of offset. *)
Definition chunk_wf (c : chunk) : Prop := chunkOffsetSize <= len c.

(** The replay loop of the package documentation,
    [for r.Next() { ... r.Data() ... r.Offset() ... }]: the offsets and
    payloads seen, and the reader at the end.  [fuel] bounds both the
    number of rounds and the [goto]s of each [Next]. *)
Fixpoint replay {S} `{Sink S} (fuel : nat) (r : Reader)
  : M S (list (Offset * list byte) * Reader) :=
  match fuel with
  | O => diverge
  | Datatypes.S fuel' =>
      do '(more, r1) <- Reader_Next fuel r ;;
      if more then
        do d <- Reader_Data r1 ;;
        do '(rest, r2) <- replay fuel' r1 ;;
        ret ((Reader_Offset r1, d) :: rest, r2)
      else ret ([], r1)
  end.

(** A world with nothing allocated and an empty in-memory sink. *)
Definition world0 (clk : nat -> Z) : World MemorySink :=
  mkWorld [] NewMemorySink clk 0.

(** The world with another heap. *)
Definition with_heap {S} (w : World S) (h : list Segment) : World S :=
  mkWorld h (sink w) (clock w) (ticks w).

(** The offset and the data of a (well-formed) chunk. *)
Definition offset_of (c : chunk) : Offset :=
  match chunk_Offset c with Ok o => o | _ => 0 end.
Definition data_of (c : chunk) : list byte := drop 8 c.

(** The oldest and newest offsets [Limits] reports for a chunk list. *)
Definition limits_of (cs : list chunk) : Offset * Offset :=
  match cs with
  | [] => (ZeroOffset, ZeroOffset)
  | c :: _ => (offset_of c, offset_of (List.last cs c))
  end.

(** The sum of the raw chunk lengths, as a number. *)
Definition rawSize (cs : list chunk) : Z :=
  fold_right (fun c n => len c + n) 0 cs.

(** A segment with chunks at the offsets 1, 2 and 3, alone in a world. *)
Definition seg123 : Segment :=
  mkSegment 1024
    [newChunkOffset [x61] 1; newChunkOffset [x62] 2; newChunkOffset [x63] 3]
    (-1).
Definition world123 : World MemorySink :=
  mkWorld [seg123] NewMemorySink (fun _ => 0) 0%nat.

(** What the documentation of [Truncate] promises to keep: the chunks
    whose offset is greater than [o], in their order. *)
Definition newer_than (o : Offset) (cs : list chunk) : list chunk :=
  List.filter (fun c => offset_of c >? o) cs.

(** An open logger with segment size 20 over the empty in-memory sink,
    as [New] builds it in [world0]. *)
Definition logger20 : Logger := mkLogger 20 (Some 0%nat) false.
Definition world20 (clk : nat -> Z) : World MemorySink :=
  mkWorld [mkSegment 20 [] (-1)] NewMemorySink clk 0%nat.

(** Successive [Write]s of the payloads [ps] to one segment; the results
    of the calls are collected. *)
Fixpoint writeAll {S} (s : SegPtr) (ps : list (list byte))
  : M S (list (Z * option error)) :=
  match ps with
  | [] => ret []
  | p :: ps' =>
      do r <- Segment_Write s p ;;
      do rs <- writeAll s ps' ;;
      ret (r :: rs)
  end.

(** The segment at address [a] holds no more raw bytes than [bound]. *)
Definition raw_within {S} (w : World S) (a : nat) (bound : Z) : Prop :=
  forall seg, heap w !! a = Some seg -> rawSize (chunks seg) <= bound.

Definition payload15 (b : byte) : list byte := replicate 15 b.

(** The state of a segment that only [Write] has touched. *)
Definition write_inv (seg : Segment) : Prop :=
  chunks seg = [] \/ (size seg < 2^63 /\ rawSize (chunks seg) <= size seg + 8).

(** The text of a (well-formed) chunk, and the serialization of a chunk
    list: one line of text per chunk. *)
Definition text_of (c : chunk) : list byte :=
  match chunk_MarshalText c with Ok (p, _) => p | _ => [] end.
Definition serialize (cs : list chunk) : list byte :=
  flat_map (fun c => text_of c ++ [x0a]) cs.

(** ** The in-memory sink, as the properties see it *)

(** The sink of [w] holds the segments at the addresses [addrs], whose
    values are [segs], all of well-formed chunks. *)
Definition sink_holds (w : World MemorySink) (addrs : list nat)
    (segs : list Segment) : Prop :=
  segments (sink w) = map Some addrs
  /\ Forall2 (fun a s => heap w !! a = Some s) addrs segs
  /\ Forall (fun s => Forall chunk_wf (chunks s)) segs.

Definition newest_of (s : Segment) : Offset := snd (limits_of (chunks s)).
Definition oldest_of (s : Segment) : Offset := fst (limits_of (chunks s)).

(** The number of leading segments whose newest offset is before [o]. *)
Fixpoint expired_prefix (segs : list Segment) (o : Offset) : nat :=
  match segs with
  | [] => 0
  | s :: segs' =>
      if newest_of s <? o then Datatypes.S (expired_prefix segs' o) else 0
  end.





(** ** Replay, as the properties see it *)

(** What a reader shows of a chunk. *)
Definition entry_of (c : chunk) : Offset * list byte := (offset_of c, data_of c).

Definition unread (s : Segment) : Prop := chunkIdx s = -1.

(** A segment a reader can pass: it has chunks, its oldest offset is not
    negative and not after its newest, and its newest offset is below
    the largest [int64]. *)
Definition range_ok (s : Segment) : Prop :=
  chunks s <> [] /\ 0 <= oldest_of s <= newest_of s /\ newest_of s < MaxInt64.

(** Every segment ends before the next one starts. *)
Fixpoint boundaries_increase (segs : list Segment) : Prop :=
  match segs with
  | s1 :: segs' =>
      match segs' with
      | s2 :: _ => newest_of s1 < oldest_of s2
      | [] => True
      end /\ boundaries_increase segs'
  | [] => True
  end.

(** The position in [segs] of the segment [LoadSegment(x)] returns, for
    [x] other than [ZeroOffset]. *)
Fixpoint scan_pos (segs : list Segment) (x : Offset) : option nat :=
  match segs with
  | [] => None
  | s :: segs' =>
      if ((oldest_of s <=? x) && (x <=? newest_of s)) || (x <? oldest_of s)
      then Some 0%nat
      else option_map Datatypes.S (scan_pos segs' x)
  end.

(** The heap [h] holds the segments [segs] at [addrs] with the cursors of
    a reader that has finished the segments before the [i]-th and stands
    at index [idx] of the [i]-th. *)
Definition pos_inv (addrs : list nat) (segs : list Segment)
    (h : list Segment) (i : nat) (idx : Z) : Prop :=
  forall k a s,
    addrs !! k = Some a -> segs !! k = Some s ->
    h !! a = Some (mkSegment (size s) (chunks s)
                     (if (k <? i)%nat then len (chunks s) - 1
                      else if (k =? i)%nat then idx else -1)).

(** The chunks still to come from that position. *)
Definition rest_from (segs : list Segment) (i : nat) (idx : Z) : list chunk :=
  match segs !! i with
  | Some s => drop (Z.to_nat (idx + 1)) (chunks s)
  | None => []
  end ++ concat (map chunks (drop (Datatypes.S i) segs)).

(** Two segments of one chunk each, both at offset 5, held by the sink. *)
Definition world_collide : World MemorySink :=
  mkWorld [mkSegment 64 [newChunkOffset [x61] 5] (-1);
           mkSegment 64 [newChunkOffset [x62] 5] (-1)]
          (mkMemorySink [Some 0%nat; Some 1%nat]) (fun _ => 0) 0%nat.

(** ** The logger scenario *)

(** The world with the segment [a] added to the sink. *)
Definition with_segment (w : World MemorySink) (a : nat) : World MemorySink :=
  mkWorld (heap w) (mkMemorySink (segments (sink w) ++ [Some a])) (clock w) (ticks w).

(** The world after a chunk for [p] was appended to the segment at [a],
    whose value was [seg]. *)
Definition with_chunk {S} (w : World S) (a : nat) (seg : Segment) (p : list byte)
  : World S :=
  mkWorld (<[a := mkSegment (size seg)
                    (chunks seg ++ [newChunkOffset p (int64 (clock w (ticks w)))])
                    (chunkIdx seg)]> (heap w))
          (sink w) (clock w) (Datatypes.S (ticks w)).

(** The world with a fresh empty segment of the given size. *)
Definition with_fresh {S} (w : World S) (sz : Z) : World S :=
  mkWorld (heap w ++ [mkSegment sz [] (-1)]) (sink w) (clock w) (ticks w).

(** Two writes of 15 bytes to a logger with segments of 20 bytes, over
    the empty in-memory sink, with the clock reading 100, 101, ... *)
Definition two_writes : Res (Logger * World MemorySink) :=
  (do '(_, l1) <- Logger_Write 2 logger20 (payload15 x41) ;;
   do '(_, l2) <- Logger_Write 2 l1 (payload15 x42) ;;
   ret l2) (world20 (fun k => 100 + Z.of_nat k)).


(** ** The directory sink, as the properties see it *)






(** A directory sink after six writes of 15 bytes through a logger with
    segments of 60 bytes, closed; the clock reads 100, 101, ... *)
Definition dir_world0 (clk : nat -> Z) : World DirectorySink :=
  mkWorld [] (mkDirectorySink (bytes_of_string "/wal") [] [] []) clk 0%nat.

Definition dir_logged : Res (unit * World DirectorySink) :=
  (do '(ol, _) <- New [SegmentSize 60] ;;
   match ol with
   | None => panic
   | Some l =>
       do '(_, l) <- Logger_Write 2 l (payload15 x41) ;;
       do '(_, l) <- Logger_Write 2 l (payload15 x42) ;;
       do '(_, l) <- Logger_Write 2 l (payload15 x43) ;;
       do '(_, l) <- Logger_Write 2 l (payload15 x44) ;;
       do '(_, l) <- Logger_Write 2 l (payload15 x45) ;;
       do '(_, l) <- Logger_Write 2 l (payload15 x46) ;;
       do _ <- Logger_Close l ;;
       ret tt
   end) (dir_world0 (fun k => 100 + Z.of_nat k)).





(** The replay, from [ZeroOffset], of the directory sink [dir_logged]:
    the chunks seen and the reader's error at the end. *)
Definition dir_replay : Res (list (Offset * list byte) * option error) :=
  match dir_logged with
  | Ok (_, w) =>
      match replay 10 NewReader w with
      | Ok ((l, r), _) => Ok (l, Reader_Error r)
      | Panic => Panic
      | Diverge => Diverge
      end
  | Panic => Panic
  | Diverge => Diverge
  end.

(** * Machine integers *)

Lemma int64_id z : in_int64 z -> int64 z = z.
Proof.
  unfold in_int64, int64. intros H.
  rewrite Z.mod_small; lia.
Qed.

Lemma uint64_id z : in_uint64 z -> uint64 z = z.
Proof. unfold in_uint64, uint64. intros H. apply Z.mod_small; lia. Qed.

Lemma int32_id z : - 2^31 <= z < 2^31 -> int32 z = z.
Proof. unfold int32. intros H. rewrite Z.mod_small; lia. Qed.

Lemma int64_range z : in_int64 (int64 z).
Proof.
  unfold in_int64, int64.
  pose proof (Z.mod_pos_bound (z + 2^63) (2^64) ltac:(lia)). lia.
Qed.

Lemma uint64_range z : in_uint64 (uint64 z).
Proof. unfold in_uint64, uint64. apply Z.mod_pos_bound. lia. Qed.

(** * Offsets are ordered as numbers *)

Lemma land_pow2_small x k :
  0 <= k -> 0 <= x < 2^k -> Z.land x (Z.shiftl 1 k) = 0.
Proof.
  intros Hk Hx. apply Z.bits_inj'. intros n Hn.
  rewrite Z.land_spec, Z.bits_0, Z.shiftl_1_l, Z.pow2_bits_eqb by lia.
  destruct (Z.eqb_spec k n) as [->|]; [|apply andb_false_r].
  destruct (Z.eq_dec x 0) as [->|]; [now rewrite Z.bits_0|].
  rewrite Z.bits_above_log2; [reflexivity|lia|].
  apply Z.log2_lt_pow2; lia.
Qed.

Lemma Unix_0 n :
  in_int64 n ->
  time.Unix 0 n =
  time.mkTime (n mod 1000000000) (n / 1000000000 + time.unixToInternal).
Proof.
  intros Hn. unfold in_int64 in Hn. unfold time.Unix.
  assert (Hu : time.unixToInternal = 62135596800) by reflexivity.
  pose proof (Z.quot_rem' n 1000000000) as Hqr.
  pose proof (Z.div_mod n 1000000000 ltac:(lia)) as Hdm.
  pose proof (Z.mod_pos_bound n 1000000000 ltac:(lia)) as Hm.
  destruct ((n <? 0) || (n >=? 1000000000)) eqn:E.
  - cbn zeta. rewrite Z.add_0_l.
    assert (Hq : -9223372037 <= Z.quot n 1000000000 <= 9223372037).
    { split.
      - apply Z.quot_le_lower_bound; lia.
      - apply Z.quot_le_upper_bound; lia. }
    assert (Hrb : -1000000000 < Z.rem n 1000000000 < 1000000000
                  /\ (n < 0 -> Z.rem n 1000000000 <= 0)
                  /\ (0 <= n -> 0 <= Z.rem n 1000000000)).
    { destruct (Z_lt_le_dec n 0).
      - pose proof (Z.rem_bound_pos_neg n 1000000000 ltac:(lia) ltac:(lia)). lia.
      - pose proof (Z.rem_bound_pos n 1000000000 ltac:(lia) ltac:(lia)). lia. }
    rewrite (int64_id (Z.quot n 1000000000)) by (unfold in_int64; lia).
    rewrite (int64_id (Z.quot n 1000000000 * 1000000000)) by (unfold in_int64; lia).
    assert (Hr : n - Z.quot n 1000000000 * 1000000000 = Z.rem n 1000000000) by lia.
    rewrite Hr.
    rewrite (int64_id (Z.rem n 1000000000)) by (unfold in_int64; lia).
    destruct (Z.ltb_spec (Z.rem n 1000000000) 0) as [Hneg|Hpos].
    + assert (n / 1000000000 = Z.quot n 1000000000 - 1
              /\ n mod 1000000000 = Z.rem n 1000000000 + 1000000000) as [Hd Hmd].
      { assert (n / 1000000000 = Z.quot n 1000000000 - 1) by
          (symmetry; apply (Z.div_unique n 1000000000 _ (Z.rem n 1000000000 + 1000000000)); lia).
        lia. }
      unfold time.unixTime.
      rewrite (int64_id (Z.quot n 1000000000 - 1)) by (unfold in_int64; lia).
      rewrite (int64_id (Z.rem n 1000000000 + 1000000000)) by (unfold in_int64; lia).
      rewrite int32_id by lia.
      rewrite uint64_id by (unfold in_uint64; lia).
      rewrite int64_id by (unfold in_int64; lia).
      rewrite Hd, Hmd. reflexivity.
    + assert (n / 1000000000 = Z.quot n 1000000000
              /\ n mod 1000000000 = Z.rem n 1000000000) as [Hd Hmd].
      { assert (n / 1000000000 = Z.quot n 1000000000) by
          (symmetry; apply (Z.div_unique n 1000000000 _ (Z.rem n 1000000000)); lia).
        lia. }
      unfold time.unixTime.
      rewrite int32_id by lia.
      rewrite uint64_id by (unfold in_uint64; lia).
      rewrite int64_id by (unfold in_int64; lia).
      rewrite Hd, Hmd. reflexivity.
  - apply orb_false_iff in E as [E1 E2].
    apply Z.ltb_ge in E1. rewrite Z.geb_leb in E2. apply Z.leb_gt in E2.
    unfold time.unixTime.
    rewrite int32_id by lia.
    rewrite uint64_id by (unfold in_uint64; lia).
    rewrite Z.add_0_l, int64_id by (unfold in_int64; lia).
    rewrite Z.mod_small, Z.div_small by lia. reflexivity.
Qed.

Lemma sec_nsec_normal m s :
  0 <= m < 1000000000 ->
  time.sec (time.mkTime m s) = s /\ time.nsec (time.mkTime m s) = m.
Proof.
  intros Hm. unfold time.sec, time.nsec, time.hasMonotonic, time.nsecMask. cbn [time.wall time.ext].
  rewrite land_pow2_small by lia. cbn [Z.eqb negb].
  split; [reflexivity|].
  rewrite Z.shiftl_1_l.
  replace (2 ^ 30 - 1) with (Z.ones 30) by reflexivity.
  rewrite Z.land_ones by lia. rewrite Z.mod_small by lia.
  apply int32_id. lia.
Qed.

Lemma land_land_pow2_small x y k :
  0 <= k -> 0 <= x < 2^k -> Z.land (Z.land x y) (Z.shiftl 1 k) = 0.
Proof.
  intros Hk Hx.
  rewrite <- Z.land_assoc, (Z.land_comm y), Z.land_assoc.
  rewrite land_pow2_small by lia. apply Z.land_0_l.
Qed.

Lemma Offset_Before_spec a b :
  in_int64 a -> in_int64 b -> Offset_Before a b = (a <? b).
Proof.
  intros Ha Hb. unfold Offset_Before. rewrite !Unix_0 by assumption.
  pose proof (Z.mod_pos_bound a 1000000000 ltac:(lia)) as Hma.
  pose proof (Z.mod_pos_bound b 1000000000 ltac:(lia)) as Hmb.
  unfold time.Before.
  destruct (sec_nsec_normal (a mod 1000000000) (a / 1000000000 + time.unixToInternal) Hma) as [-> ->].
  destruct (sec_nsec_normal (b mod 1000000000) (b / 1000000000 + time.unixToInternal) Hmb) as [-> ->].
  cbn [time.wall time.ext]. unfold time.hasMonotonic.
  rewrite land_land_pow2_small by lia. cbn [Z.eqb negb].
  pose proof (Z.div_mod a 1000000000 ltac:(lia)).
  pose proof (Z.div_mod b 1000000000 ltac:(lia)).
  destruct (Z.ltb_spec a b);
    destruct (Z.ltb_spec (a / 1000000000 + time.unixToInternal) (b / 1000000000 + time.unixToInternal));
    destruct (Z.eqb_spec (a / 1000000000 + time.unixToInternal) (b / 1000000000 + time.unixToInternal));
    destruct (Z.ltb_spec (a mod 1000000000) (b mod 1000000000)); cbn; try reflexivity; lia.
Qed.

Lemma Offset_Equal_spec a b :
  in_int64 a -> in_int64 b -> Offset_Equal a b = (a =? b).
Proof.
  intros Ha Hb. unfold Offset_Equal. rewrite !Unix_0 by assumption.
  pose proof (Z.mod_pos_bound a 1000000000 ltac:(lia)) as Hma.
  pose proof (Z.mod_pos_bound b 1000000000 ltac:(lia)) as Hmb.
  unfold time.Equal.
  destruct (sec_nsec_normal (a mod 1000000000) (a / 1000000000 + time.unixToInternal) Hma) as [-> ->].
  destruct (sec_nsec_normal (b mod 1000000000) (b / 1000000000 + time.unixToInternal) Hmb) as [-> ->].
  cbn [time.wall time.ext]. unfold time.hasMonotonic.
  rewrite land_land_pow2_small by lia. cbn [Z.eqb negb].
  pose proof (Z.div_mod a 1000000000 ltac:(lia)).
  pose proof (Z.div_mod b 1000000000 ltac:(lia)).
  destruct (Z.eqb_spec a b);
    destruct (Z.eqb_spec (a / 1000000000 + time.unixToInternal) (b / 1000000000 + time.unixToInternal));
    destruct (Z.eqb_spec (a mod 1000000000) (b mod 1000000000)); cbn; try reflexivity; try lia.
Qed.


Lemma Offset_Within_spec o a b :
  Offset_Within o a b = ((a <=? o) && (o <=? b)).
Proof. reflexivity. Qed.

(** * Bytes *)

Lemma byte_to_Z_range b : 0 <= byte_to_Z b < 256.
Proof.
  unfold byte_to_Z. pose proof (Byte.to_N_bounded b). lia.
Qed.

Lemma byte_of_to_Z b : byte_of_Z (byte_to_Z b) = b.
Proof.
  unfold byte_of_Z. pose proof (byte_to_Z_range b).
  rewrite Z.mod_small by lia. unfold byte_to_Z.
  rewrite N2Z.id, Byte.of_to_N. reflexivity.
Qed.

Lemma byte_to_of_Z z : byte_to_Z (byte_of_Z z) = z mod 256.
Proof.
  unfold byte_of_Z, byte_to_Z.
  pose proof (Z.mod_pos_bound z 256 ltac:(lia)) as Hm.
  destruct (Byte.of_N (Z.to_N (z mod 256))) as [b|] eqn:E.
  - apply Byte.to_of_N in E. rewrite E. lia.
  - apply Byte.of_N_None_iff in E. lia.
Qed.

Lemma byte_of_Z_mod z : byte_of_Z (z mod 256) = byte_of_Z z.
Proof. unfold byte_of_Z. rewrite Z.mod_mod by lia. reflexivity. Qed.

Lemma byte_of_Z_eq z b : z mod 256 = byte_to_Z b -> byte_of_Z z = b.
Proof. intros H. rewrite <- byte_of_Z_mod, H. apply byte_of_to_Z. Qed.

Lemma byte_to_Z_inj a b : byte_to_Z a = byte_to_Z b -> a = b.
Proof. intros H. rewrite <- (byte_of_to_Z a), H. apply byte_of_to_Z. Qed.

Lemma byte_eqb_Z a b : Byte.eqb a b = (byte_to_Z a =? byte_to_Z b).
Proof.
  destruct (Z.eqb_spec (byte_to_Z a) (byte_to_Z b)) as [E|E].
  - apply byte_to_Z_inj in E. subst. apply Byte.byte_dec_lb. reflexivity.
  - destruct (Byte.eqb a b) eqn:Eb; [|reflexivity].
    apply Byte.byte_dec_bl in Eb. subst. contradiction.
Qed.

(** * Bit operations as arithmetic *)

Lemma testbit_small a k n : 0 <= a < 2^k -> k <= n -> Z.testbit a n = false.
Proof.
  intros Ha Hn.
  destruct (Z.eq_dec a 0) as [->|]; [apply Z.bits_0|].
  assert (0 <= k) by (destruct (Z_lt_le_dec k 0); [rewrite Z.pow_neg_r in Ha; lia|lia]).
  apply Z.bits_above_log2; [lia|].
  assert (Z.log2 a < k) by (apply Z.log2_lt_pow2; lia). lia.
Qed.

Lemma lor_add a c k :
  0 <= k -> 0 <= a < 2^k -> Z.lor a (c * 2^k) = a + c * 2^k.
Proof.
  intros Hk Ha.
  assert (Hl : Z.land a (c * 2^k) = 0).
  { apply Z.bits_inj'. intros n Hn. rewrite Z.land_spec, Z.bits_0.
    destruct (Z_lt_le_dec n k).
    - rewrite Z.mul_pow2_bits_low by lia. apply andb_false_r.
    - rewrite (testbit_small a k n) by lia. reflexivity. }
  rewrite Z.add_nocarry_lxor by exact Hl.
  symmetry. apply Z.lxor_lor. exact Hl.
Qed.

Lemma lor_add' a c k :
  0 <= k -> 0 <= a < 2^k -> Z.lor (c * 2^k) a = c * 2^k + a.
Proof. intros. rewrite Z.lor_comm, lor_add by assumption. lia. Qed.

Lemma lor_add_div a b k :
  0 <= k -> 0 <= a < 2^k -> b mod 2^k = 0 -> Z.lor a b = a + b.
Proof.
  intros Hk Ha Hb.
  assert (0 < 2^k) by (apply Z.pow_pos_nonneg; lia).
  rewrite (Z.div_mod b (2^k)) by lia. rewrite Hb, Z.add_0_r.
  rewrite (Z.mul_comm (2^k)). apply lor_add; assumption.
Qed.

Lemma lor_add_div' a b k :
  0 <= k -> 0 <= a < 2^k -> b mod 2^k = 0 -> Z.lor b a = b + a.
Proof. intros. rewrite Z.lor_comm, (lor_add_div a b k) by assumption. lia. Qed.

(** * Little-endian words *)

Ltac byte_ranges :=
  repeat match goal with
         | b : byte |- _ =>
             lazymatch goal with
             | H : 0 <= byte_to_Z b < 256 |- _ => fail
             | _ => pose proof (byte_to_Z_range b)
             end
         end.

Ltac solve_lor_side :=
  first [ lia | Z.div_mod_to_equations; lia ].

Lemma Uint64_arith b0 b1 b2 b3 b4 b5 b6 b7 rest :
  binary.Uint64 (b0 :: b1 :: b2 :: b3 :: b4 :: b5 :: b6 :: b7 :: rest) =
  Ok (byte_to_Z b0 + byte_to_Z b1 * 2^8 + byte_to_Z b2 * 2^16
      + byte_to_Z b3 * 2^24 + byte_to_Z b4 * 2^32 + byte_to_Z b5 * 2^40
      + byte_to_Z b6 * 2^48 + byte_to_Z b7 * 2^56).
Proof.
  unfold binary.Uint64. f_equal. byte_ranges.
  rewrite !Z.shiftl_mul_pow2 by lia.
  rewrite (lor_add_div (byte_to_Z b6 * 2^48) _ 56) by solve_lor_side.
  rewrite (lor_add_div (byte_to_Z b5 * 2^40) _ 48) by solve_lor_side.
  rewrite (lor_add_div (byte_to_Z b4 * 2^32) _ 40) by solve_lor_side.
  rewrite (lor_add_div (byte_to_Z b3 * 2^24) _ 32) by solve_lor_side.
  rewrite (lor_add_div (byte_to_Z b2 * 2^16) _ 24) by solve_lor_side.
  rewrite (lor_add_div (byte_to_Z b1 * 2^8) _ 16) by solve_lor_side.
  rewrite (lor_add_div (byte_to_Z b0) _ 8) by solve_lor_side.
  lia.
Qed.

Lemma Uint64_PutUint64 v rest :
  in_uint64 v -> binary.Uint64 (binary.PutUint64 v ++ rest) = Ok v.
Proof.
  unfold in_uint64. intros Hv. unfold binary.PutUint64. cbn [app].
  rewrite Uint64_arith. f_equal.
  rewrite !byte_to_of_Z, !Z.shiftr_div_pow2 by lia.
  change (2^64) with 18446744073709551616 in Hv.
  Z.div_mod_to_equations. lia.
Qed.

Lemma PutUint64_Uint64 b0 b1 b2 b3 b4 b5 b6 b7 :
  binary.PutUint64
    (byte_to_Z b0 + byte_to_Z b1 * 2^8 + byte_to_Z b2 * 2^16
     + byte_to_Z b3 * 2^24 + byte_to_Z b4 * 2^32 + byte_to_Z b5 * 2^40
     + byte_to_Z b6 * 2^48 + byte_to_Z b7 * 2^56)
  = [b0; b1; b2; b3; b4; b5; b6; b7].
Proof.
  unfold binary.PutUint64. byte_ranges.
  repeat f_equal; apply byte_of_Z_eq; rewrite ?Z.shiftr_div_pow2 by lia;
    Z.div_mod_to_equations; lia.
Qed.

Lemma Uint64_range b v : binary.Uint64 b = Ok v -> in_uint64 v.
Proof.
  destruct b as [|b0 [|b1 [|b2 [|b3 [|b4 [|b5 [|b6 [|b7 rest]]]]]]]];
    try discriminate.
  rewrite Uint64_arith. intros [= <-]. byte_ranges. unfold in_uint64. lia.
Qed.

Lemma uint64_int64 v : in_uint64 v -> uint64 (int64 v) = v.
Proof.
  unfold in_uint64, uint64, int64. intros Hv.
  Z.div_mod_to_equations. lia.
Qed.

Lemma int64_uint64 v : in_int64 v -> int64 (uint64 v) = v.
Proof.
  unfold in_int64, uint64, int64. intros Hv.
  Z.div_mod_to_equations. lia.
Qed.

(** * Decimal numbers *)

Lemma digit_to_Z d : 0 <= d < 10 -> byte_to_Z (strconv.digit d) = 48 + d.
Proof.
  intros Hd. unfold strconv.digit. rewrite byte_to_of_Z.
  apply Z.mod_small. lia.
Qed.

Lemma formatBits_digits fuel u acc :
  0 <= u -> Forall is_digit acc -> Forall is_digit (strconv.formatBits fuel u acc).
Proof.
  revert u acc. induction fuel as [|fuel IH]; intros u acc Hu Hacc; cbn; [assumption|].
  assert (Hd : is_digit (strconv.digit (u mod 10))).
  { unfold is_digit. rewrite digit_to_Z; pose proof (Z.mod_pos_bound u 10); lia. }
  destruct (u <? 10).
  - constructor; assumption.
  - apply IH; [apply Z.div_pos; lia|constructor; assumption].
Qed.

Lemma formatBits_nonempty fuel u acc :
  (0 < fuel)%nat -> strconv.formatBits fuel u acc <> [].
Proof.
  revert u acc. induction fuel as [|fuel IH]; intros u acc Hf; [lia|].
  cbn. destruct (u <? 10); [discriminate|].
  destruct fuel; [discriminate|]. apply IH. lia.
Qed.

Lemma parse_val_formatBits fuel u acc :
  0 <= u < 10 ^ Z.of_nat fuel ->
  parse_val (strconv.formatBits fuel u acc) 0 = parse_val acc u.
Proof.
  revert u acc. induction fuel as [|fuel IH]; intros u acc Hu.
  - cbn in *. f_equal. lia.
  - cbn [strconv.formatBits].
    assert (Hd : byte_to_Z (strconv.digit (u mod 10)) - 48 = u mod 10).
    { rewrite digit_to_Z; pose proof (Z.mod_pos_bound u 10); lia. }
    destruct (Z.ltb_spec u 10).
    + cbn [parse_val]. rewrite Hd. f_equal. rewrite Z.mod_small by lia. lia.
    + rewrite IH.
      * cbn [parse_val]. rewrite Hd. f_equal.
        pose proof (Z.div_mod u 10). lia.
      * rewrite Nat2Z.inj_succ, Z.pow_succ_r in Hu by lia.
        split; [apply Z.div_pos; lia|].
        apply Z.div_lt_upper_bound; lia.
Qed.

Lemma parse_val_le s n : Forall is_digit s -> 0 <= n -> n <= parse_val s n.
Proof.
  intros Hs. revert n. induction Hs as [|c s Hc Hs IH]; intros n Hn; cbn; [lia|].
  unfold is_digit in Hc. specialize (IH (n * 10 + (byte_to_Z c - 48))). lia.
Qed.

Lemma parseDigits_val s n :
  Forall is_digit s -> 0 <= n -> parse_val s n <= strconv.maxUint64 ->
  strconv.parseDigits s n = (parse_val s n, None).
Proof.
  intros Hs. revert n. induction Hs as [|c s Hc Hs IH]; intros n Hn Hmax; cbn; [reflexivity|].
  unfold is_digit in Hc.
  pose proof (parse_val_le s (n * 10 + (byte_to_Z c - 48)) Hs ltac:(lia)) as Hle.
  cbn [parse_val] in Hmax. unfold strconv.maxUint64 in *.
  destruct (Z.leb_spec 48 (byte_to_Z c)); [|lia].
  destruct (Z.leb_spec (byte_to_Z c) 57); [|lia].
  cbn [andb].
  change (2 ^ 64 - 1) with 18446744073709551615 in *.
  change (18446744073709551615 / 10 + 1) with 1844674407370955162.
  destruct (Z.geb_spec n 1844674407370955162); [lia|].
  rewrite (uint64_id (n * 10)) by (unfold in_uint64; lia).
  rewrite (uint64_id (n * 10 + _)) by (unfold in_uint64; lia).
  destruct (Z.ltb_spec (n * 10 + (byte_to_Z c - 48)) (n * 10)); [lia|].
  destruct (Z.gtb_spec (n * 10 + (byte_to_Z c - 48)) 18446744073709551615); [lia|].
  cbn [orb]. apply IH; lia.
Qed.

Lemma ParseUint_formatBits u :
  in_uint64 u ->
  strconv.ParseUint (strconv.formatBits 20 u []) = (u, None).
Proof.
  intros Hu. unfold in_uint64 in Hu. unfold strconv.ParseUint.
  destruct (strconv.formatBits 20 u []) eqn:E.
  - exfalso. revert E. apply formatBits_nonempty. lia.
  - rewrite <- E. rewrite parseDigits_val.
    + rewrite parse_val_formatBits; [reflexivity|]. cbn. lia.
    + apply formatBits_digits; [lia|constructor].
    + lia.
    + rewrite parse_val_formatBits; cbn; unfold strconv.maxUint64; lia.
Qed.

Lemma ParseInt_FormatInt i :
  in_int64 i -> strconv.ParseInt (strconv.FormatInt i) = (i, None).
Proof.
  intros Hi. unfold in_int64 in Hi. unfold strconv.FormatInt.
  destruct (Z.ltb_spec i 0) as [Hneg|Hpos].
  - unfold strconv.ParseInt.
    change (Byte.eqb "-" "+") with false. change (Byte.eqb "-" "-") with true.
    cbn [orb negb andb].
    rewrite (uint64_id (- i)) by (unfold in_uint64; lia).
    rewrite ParseUint_formatBits by (unfold in_uint64; lia).
    destruct (Z.gtb_spec (- i) (2 ^ 63)); [lia|].
    f_equal. unfold int64. Z.div_mod_to_equations. lia.
  - rewrite (uint64_id i) by (unfold in_uint64; lia).
    pose proof (ParseUint_formatBits i ltac:(unfold in_uint64; lia)) as HP.
    pose proof (formatBits_digits 20 i [] Hpos ltac:(constructor)) as Hd.
    unfold strconv.ParseInt.
    destruct (strconv.formatBits 20 i []) as [|c s] eqn:E.
    + exfalso. revert E. apply formatBits_nonempty. lia.
    + inversion Hd as [|? ? Hc _]; subst. unfold is_digit in Hc.
      rewrite !byte_eqb_Z.
      change (byte_to_Z "-") with 45. change (byte_to_Z "+") with 43.
      destruct (Z.eqb_spec (byte_to_Z c) 43); [lia|].
      destruct (Z.eqb_spec (byte_to_Z c) 45); [lia|].
      cbn [orb negb andb]. rewrite HP.
      destruct (Z.geb_spec i (2 ^ 63)); [lia|].
      rewrite int64_id by (unfold in_int64; lia). reflexivity.
Qed.

Lemma FormatInt_chars i :
  Forall (fun c => is_digit c \/ c = x2d) (strconv.FormatInt i).
Proof.
  unfold strconv.FormatInt.
  assert (H : forall u, 0 <= u -> Forall (fun c => is_digit c \/ c = x2d) (strconv.formatBits 20 u [])).
  { intros u Hu. eapply Forall_impl; [|apply formatBits_digits; [exact Hu|constructor]].
    intros c Hc. left. exact Hc. }
  destruct (i <? 0).
  - constructor; [right; reflexivity|]. apply H. unfold uint64. apply Z.mod_pos_bound. lia.
  - apply H. unfold uint64. apply Z.mod_pos_bound. lia.
Qed.

(** * Base64 *)

Lemma below_64_cases (P : Z -> Prop) :
  (forall n : nat, (n < 64)%nat -> P (Z.of_nat n)) ->
  forall i, 0 <= i < 64 -> P i.
Proof.
  intros H i Hi. rewrite <- (Z2Nat.id i) by lia. apply H. lia.
Qed.

Lemma decodeMap_encode i :
  0 <= i < 64 -> base64.decodeMap (base64.encode i) = i.
Proof.
  revert i. apply below_64_cases. intros n Hn.
  do 64 (destruct n as [|n]; [vm_compute; reflexivity|]). lia.
Qed.

Lemma encode_alphabet i :
  0 <= i < 64 ->
  base64.encode i <> x3a /\ base64.encode i <> x0a /\ base64.encode i <> x0d.
Proof.
  revert i. apply below_64_cases. intros n Hn.
  do 64 (destruct n as [|n]; [vm_compute; repeat split; discriminate|]). lia.
Qed.

Lemma land_63 x : Z.land x 63 = x mod 64.
Proof. change 63 with (Z.ones 6). rewrite Z.land_ones by lia. reflexivity. Qed.

Lemma sextet_index val sh :
  0 <= sh ->
  base64.decodeMap (base64.sextet val sh) = (val / 2^sh) mod 64.
Proof.
  intros Hsh. unfold base64.sextet.
  rewrite land_63, Z.shiftr_div_pow2 by lia.
  apply decodeMap_encode. apply Z.mod_pos_bound. lia.
Qed.

Lemma sextet_alphabet val sh :
  base64.sextet val sh <> x3a /\ base64.sextet val sh <> x0a
  /\ base64.sextet val sh <> x0d.
Proof.
  unfold base64.sextet. apply encode_alphabet.
  rewrite land_63. apply Z.mod_pos_bound. lia.
Qed.

Lemma quantum4 a b c :
  let val := Z.lor (Z.lor (Z.shiftl (byte_to_Z a) 16) (Z.shiftl (byte_to_Z b) 8))
                   (byte_to_Z c) in
  base64.quantum [ (val / 2^18) mod 64; (val / 2^12) mod 64;
                   (val / 2^6) mod 64; (val / 2^0) mod 64 ] = [a; b; c].
Proof.
  intros val. byte_ranges.
  assert (Hval : val = byte_to_Z a * 2^16 + byte_to_Z b * 2^8 + byte_to_Z c).
  { unfold val. rewrite !Z.shiftl_mul_pow2 by lia.
    rewrite (lor_add_div' (byte_to_Z b * 2^8) _ 16) by solve_lor_side.
    rewrite (lor_add_div' (byte_to_Z c) _ 8) by solve_lor_side. reflexivity. }
  clearbody val. unfold base64.quantum. cbn [nth length Nat.sub take].
  rewrite !Z.shiftl_mul_pow2 by lia.
  set (d0 := (val / 2^18) mod 64). set (d1 := (val / 2^12) mod 64).
  set (d2 := (val / 2^6) mod 64). set (d3 := (val / 2^0) mod 64).
  assert (Hd : 0 <= d0 < 64 /\ 0 <= d1 < 64 /\ 0 <= d2 < 64 /\ 0 <= d3 < 64).
  { unfold d0, d1, d2, d3. repeat split; apply Z.mod_pos_bound; lia. }
  rewrite (lor_add_div' (d1 * 2^12) _ 18) by solve_lor_side.
  rewrite (lor_add_div' (d2 * 2^6) _ 12) by solve_lor_side.
  rewrite (lor_add_div' d3 _ 6) by solve_lor_side.
  assert (Hv : d0 * 2^18 + d1 * 2^12 + d2 * 2^6 + d3 = val).
  { unfold d0, d1, d2, d3. subst val. Z.div_mod_to_equations. lia. }
  rewrite Hv. subst val.
  repeat f_equal; apply byte_of_Z_eq; rewrite ?Z.shiftr_div_pow2 by lia;
    Z.div_mod_to_equations; lia.
Qed.

Lemma quantum3 a b :
  let val := Z.lor (Z.shiftl (byte_to_Z a) 16) (Z.shiftl (byte_to_Z b) 8) in
  base64.quantum [ (val / 2^18) mod 64; (val / 2^12) mod 64;
                   (val / 2^6) mod 64 ] = [a; b].
Proof.
  intros val. byte_ranges.
  assert (Hval : val = byte_to_Z a * 2^16 + byte_to_Z b * 2^8).
  { unfold val. rewrite !Z.shiftl_mul_pow2 by lia.
    rewrite (lor_add_div' (byte_to_Z b * 2^8) _ 16) by solve_lor_side. reflexivity. }
  clearbody val. unfold base64.quantum. cbn [nth length Nat.sub take].
  rewrite !Z.shiftl_mul_pow2 by lia.
  set (d0 := (val / 2^18) mod 64). set (d1 := (val / 2^12) mod 64).
  set (d2 := (val / 2^6) mod 64).
  assert (Hd : 0 <= d0 < 64 /\ 0 <= d1 < 64 /\ 0 <= d2 < 64).
  { unfold d0, d1, d2. repeat split; apply Z.mod_pos_bound; lia. }
  rewrite (lor_add_div' (d1 * 2^12) _ 18) by solve_lor_side.
  rewrite (lor_add_div' (d2 * 2^6) _ 12) by solve_lor_side.
  rewrite Z.lor_0_r.
  assert (Hv : d0 * 2^18 + d1 * 2^12 + d2 * 2^6 = val).
  { unfold d0, d1, d2. subst val. Z.div_mod_to_equations. lia. }
  rewrite Hv. subst val.
  repeat f_equal; apply byte_of_Z_eq; rewrite ?Z.shiftr_div_pow2 by lia;
    Z.div_mod_to_equations; lia.
Qed.

Lemma quantum2 a :
  let val := Z.shiftl (byte_to_Z a) 16 in
  base64.quantum [ (val / 2^18) mod 64; (val / 2^12) mod 64 ] = [a].
Proof.
  intros val. byte_ranges.
  assert (Hval : val = byte_to_Z a * 2^16).
  { unfold val. rewrite !Z.shiftl_mul_pow2 by lia. reflexivity. }
  clearbody val. unfold base64.quantum. cbn [nth length Nat.sub take].
  rewrite !Z.shiftl_mul_pow2 by lia.
  set (d0 := (val / 2^18) mod 64). set (d1 := (val / 2^12) mod 64).
  assert (Hd : 0 <= d0 < 64 /\ 0 <= d1 < 64).
  { unfold d0, d1. repeat split; apply Z.mod_pos_bound; lia. }
  rewrite (lor_add_div' (d1 * 2^12) _ 18) by solve_lor_side.
  rewrite Z.mul_0_l, !Z.lor_0_r.
  assert (Hv : d0 * 2^18 + d1 * 2^12 = val).
  { unfold d0, d1. subst val. Z.div_mod_to_equations. lia. }
  rewrite Hv. subst val.
  repeat f_equal; apply byte_of_Z_eq; rewrite ?Z.shiftr_div_pow2 by lia;
    Z.div_mod_to_equations; lia.
Qed.

(** Lists are built three elements at a time, as [Encode] reads them. *)
Lemma list_ind3 {A} (P : list A -> Prop) :
  P [] -> (forall a, P [a]) -> (forall a b, P [a; b]) ->
  (forall a b c l, P l -> P (a :: b :: c :: l)) ->
  forall l, P l.
Proof.
  intros H0 H1 H2 H3.
  assert (H : forall l, P l /\ (forall a, P (a :: l)) /\ (forall a b, P (a :: b :: l))).
  { induction l as [|x l (IH0 & IH1 & IH2)].
    - repeat split; auto.
    - repeat split; auto. }
  intros l. apply H.
Qed.

Lemma decode_step c rest si dbuf :
  base64.decodeMap c <> 255 ->
  base64.decode (c :: rest) si dbuf =
  if (length (dbuf ++ [base64.decodeMap c]) =? 4)%nat
  then let '(bs, err) := base64.decode rest (si + 1) [] in
       (base64.quantum (dbuf ++ [base64.decodeMap c]) ++ bs, err)
  else base64.decode rest (si + 1) (dbuf ++ [base64.decodeMap c]).
Proof.
  intros Hc. cbn [base64.decode].
  destruct (Z.eqb_spec (base64.decodeMap c) 255); [contradiction|reflexivity].
Qed.

Lemma sextet_valid val sh : 0 <= sh -> base64.decodeMap (base64.sextet val sh) <> 255.
Proof.
  intros Hsh. rewrite sextet_index by assumption.
  pose proof (Z.mod_pos_bound (val / 2 ^ sh) 64). lia.
Qed.

Lemma Decode_Encode_from d : forall si, base64.decode (base64.Encode d) si [] = (d, None).
Proof.
  induction d as [|a|a b|a b c l IH] using list_ind3; intros si.
  - reflexivity.
  - cbn [base64.Encode].
    rewrite !decode_step by (apply sextet_valid; lia).
    cbn [app length Nat.eqb]. rewrite !sextet_index by lia.
    cbn [base64.decode]. rewrite quantum2. reflexivity.
  - cbn [base64.Encode].
    rewrite !decode_step by (apply sextet_valid; lia).
    cbn [app length Nat.eqb]. rewrite !sextet_index by lia.
    cbn [base64.decode]. rewrite quantum3. reflexivity.
  - cbn [base64.Encode].
    rewrite !decode_step by (apply sextet_valid; lia).
    cbn [app length Nat.eqb]. rewrite !sextet_index by lia.
    rewrite IH. rewrite quantum4. reflexivity.
Qed.

Lemma Decode_Encode d : base64.Decode (base64.Encode d) = (d, None).
Proof. apply Decode_Encode_from. Qed.

Lemma Encode_alphabet d :
  Forall (fun c => c <> x3a /\ c <> x0a /\ c <> x0d) (base64.Encode d).
Proof.
  induction d as [|a|a b|a b c l IH] using list_ind3; cbn [base64.Encode];
    repeat constructor; try apply sextet_alphabet; try assumption;
    match goal with |- _ <> _ => apply sextet_alphabet end.
Qed.

Lemma Encode_length d : len (base64.Encode d) = base64.EncodedLen (len d).
Proof.
  unfold len, base64.EncodedLen.
  induction d as [|a|a b|a b c l IH] using list_ind3; cbn [base64.Encode length];
    try reflexivity.
  rewrite !Nat2Z.inj_succ. rewrite IH.
  Z.div_mod_to_equations. lia.
Qed.

Lemma DecodedLen_EncodedLen n :
  0 <= n -> base64.DecodedLen (base64.EncodedLen n) = n.
Proof.
  intros Hn. unfold base64.DecodedLen, base64.EncodedLen.
  Z.div_mod_to_equations. lia.
Qed.

(** * Chunks and their text encoding *)

Lemma index_from_app l1 c l2 i :
  Forall (fun b => b <> c) l1 ->
  bytes.index_from (l1 ++ c :: l2) c i = i + len l1.
Proof.
  intros H. revert i. induction H as [|b l1 Hb Hl IH]; intros i; cbn.
  - rewrite (Byte.byte_dec_lb eq_refl). unfold len. cbn. lia.
  - destruct (Byte.eqb b c) eqn:E; [apply Byte.byte_dec_bl in E; contradiction|].
    rewrite IH. unfold len. cbn [length]. lia.
Qed.

Lemma Index_app l1 c l2 :
  Forall (fun b => b <> c) l1 -> bytes.Index (l1 ++ c :: l2) c = len l1.
Proof. intros H. unfold bytes.Index. rewrite index_from_app by assumption. lia. Qed.

Lemma is_digit_not c d : is_digit c -> ~ (48 <= byte_to_Z d <= 57) -> c <> d.
Proof. unfold is_digit. intros Hc Hd ->. contradiction. Qed.

Lemma FormatInt_no_byte i c :
  c <> x2d -> ~ (48 <= byte_to_Z c <= 57) ->
  Forall (fun b => b <> c) (strconv.FormatInt i).
Proof.
  intros Hc1 Hc2. eapply Forall_impl; [|apply FormatInt_chars].
  intros b [Hb| ->]; [|congruence].
  eapply is_digit_not; eassumption.
Qed.

(** A chunk that [newChunkOffset] or [UnmarshalText] built is eight
    bytes of offset and its data. *)
Lemma chunk_split (c : chunk) :
  chunk_wf c ->
  exists b0 b1 b2 b3 b4 b5 b6 b7 data,
    c = b0 :: b1 :: b2 :: b3 :: b4 :: b5 :: b6 :: b7 :: data.
Proof.
  unfold chunk_wf, chunkOffsetSize, len. intros H.
  destruct c as [|b0 [|b1 [|b2 [|b3 [|b4 [|b5 [|b6 [|b7 data]]]]]]]];
    cbn [length] in H; try lia.
  repeat eexists.
Qed.

Lemma chunk_Offset_wf c : chunk_wf c -> exists o, chunk_Offset c = Ok o /\ in_int64 o.
Proof.
  intros H. destruct (chunk_split c H) as (b0&b1&b2&b3&b4&b5&b6&b7&data&->).
  unfold chunk_Offset. change (Z.to_nat chunkOffsetSize) with 8%nat.
  cbn [take]. rewrite Uint64_arith. cbn [res_bind].
  eexists. split; [reflexivity|apply int64_range].
Qed.

Lemma chunk_Data_wf c : chunk_wf c -> chunk_Data c = Ok (drop 8 c).
Proof.
  unfold chunk_wf, chunk_Data. intros H.
  destruct (Z.ltb_spec (len c) chunkOffsetSize); [lia|reflexivity].
Qed.

Lemma newChunkOffset_wf data o : chunk_wf (newChunkOffset data o).
Proof.
  unfold chunk_wf, newChunkOffset, len, chunkOffsetSize.
  rewrite length_app. cbn [binary.PutUint64 length]. lia.
Qed.

Lemma newChunkOffset_Offset data o :
  in_int64 o -> chunk_Offset (newChunkOffset data o) = Ok o.
Proof.
  intros Ho. unfold chunk_Offset, newChunkOffset.
  change (Z.to_nat chunkOffsetSize) with 8%nat.
  rewrite take_app_length' by reflexivity.
  rewrite <- (app_nil_r (binary.PutUint64 _)).
  rewrite Uint64_PutUint64 by apply uint64_range.
  cbn [res_bind]. rewrite int64_uint64 by assumption. reflexivity.
Qed.

Lemma newChunkOffset_Data data o : chunk_Data (newChunkOffset data o) = Ok data.
Proof.
  rewrite chunk_Data_wf by apply newChunkOffset_wf.
  unfold newChunkOffset. rewrite drop_app_length' by reflexivity. reflexivity.
Qed.

Lemma make_bytes_length n : 0 <= n -> length (make_bytes n) = Z.to_nat n.
Proof. intros. unfold make_bytes. apply length_replicate. Qed.

(** Marshalling a well-formed chunk, then unmarshalling the text into any
    chunk variable, gives the chunk back. *)
Lemma chunk_roundtrip (c c0 : chunk) :
  chunk_wf c ->
  exists txt,
    chunk_MarshalText c = Ok (txt, None)
    /\ chunk_UnmarshalText c0 txt = (c, None)
    /\ Forall (fun b => b <> x0a) txt
    /\ txt <> [].
Proof.
  intros Hwf.
  destruct (chunk_split c Hwf) as (b0&b1&b2&b3&b4&b5&b6&b7&data&->).
  unfold chunk_MarshalText, chunk_Offset.
  change (Z.to_nat chunkOffsetSize) with 8%nat. cbn [take].
  rewrite Uint64_arith. cbn [res_bind].
  rewrite chunk_Data_wf by assumption. cbn [drop res_bind].
  match goal with |- context [int64 ?x] => set (u := x) end.
  assert (Hu : in_uint64 u).
  { eapply Uint64_range. apply (Uint64_arith b0 b1 b2 b3 b4 b5 b6 b7 []). }
  eexists. split; [reflexivity|].
  split; [|split].
  - unfold chunk_UnmarshalText.
    rewrite <- app_assoc. cbn [app].
    rewrite Index_app by (apply FormatInt_no_byte; [discriminate|unfold byte_to_Z; cbn; lia]).
    set (num := strconv.FormatInt (int64 u)).
    assert (Hlen : 0 <= len num) by (unfold len; lia).
    destruct (Z.eqb_spec (len num) (-1)); [lia|].
    replace (Z.to_nat (len num + 1)) with (S (length num)) by (unfold len; lia).
    replace (Z.to_nat (len num)) with (length num) by (unfold len; lia).
    rewrite take_app_length. change (drop 0 data) with data.
    assert (Hdrop : drop (S (length num)) (num ++ chunkSeparator :: base64.Encode data)
                    = base64.Encode data).
    { rewrite (cons_middle chunkSeparator num), app_assoc.
      apply drop_app_length'. rewrite length_app. cbn. lia. }
    rewrite Hdrop.
    unfold num. rewrite ParseInt_FormatInt by apply int64_range.
    rewrite uint64_int64 by assumption.
    rewrite Decode_Encode.
    rewrite Encode_length, DecodedLen_EncodedLen by (unfold len; lia).
    unfold u. rewrite PutUint64_Uint64.
    cbn [app take]. do 8 f_equal.
    unfold chunkOffsetSize, make_bytes.
    replace (Z.to_nat (8 + len data)) with (8 + length data)%nat by (unfold len; lia).
    rewrite replicate_add. cbn [replicate app drop take].
    rewrite ?drop_0, ?take_0.
    rewrite drop_ge by (rewrite length_replicate; lia).
    cbn [app]. rewrite app_nil_r. reflexivity.
  - rewrite Forall_app. split.
    + apply Forall_app. split.
      * apply FormatInt_no_byte; [discriminate|unfold byte_to_Z; cbn; lia].
      * constructor; [discriminate|constructor].
    + eapply Forall_impl; [|apply Encode_alphabet]. cbn. intros ? (_ & H & _). exact H.
  - intros E. apply (f_equal (@length _)) in E. rewrite !length_app in E. cbn in E. lia.
Qed.

(** * Running monadic code *)

Section Run.
Context {S : Type}.
Implicit Types (w : World S).

Lemma bind_ok {A B} (m : M S A) (k : A -> M S B) w a w' :
  m w = Ok (a, w') -> bind m k w = k a w'.
Proof. unfold bind. intros ->. reflexivity. Qed.

Lemma bind_panic {A B} (m : M S A) (k : A -> M S B) w :
  m w = Panic -> bind m k w = Panic.
Proof. unfold bind. intros ->. reflexivity. Qed.

Lemma load_ok a w s : heap w !! a = Some s -> load (Some a) w = Ok (s, w).
Proof. unfold load. intros ->. reflexivity. Qed.

Lemma store_ok a w s s0 :
  heap w !! a = Some s0 ->
  store (Some a) s w = Ok (tt, with_heap w (<[a := s]> (heap w))).
Proof.
  intros H. unfold store. apply lookup_lt_Some in H.
  destruct (decide (a < length (heap w))%nat); [reflexivity|lia].
Qed.

Lemma lift_ok {A} (r : Res A) a w : r = Ok a -> lift r w = Ok (a, w).
Proof. intros ->. reflexivity. Qed.

Lemma index_ok {A} (l : list A) (i : nat) x :
  l !! i = Some x -> index l (Z.of_nat i) = Ok x.
Proof.
  intros H. unfold index. destruct (Z.ltb_spec (Z.of_nat i) 0); [lia|].
  rewrite Nat2Z.id, H. reflexivity.
Qed.

Lemma index_nil {A} (i : Z) : index (@nil A) i = Panic.
Proof. unfold index. destruct (i <? 0); [reflexivity|]. now rewrite lookup_nil. Qed.

Lemma lookup_last_default {A} (l : list A) (d : A) :
  l <> [] -> l !! (length l - 1)%nat = Some (List.last l d).
Proof.
  induction l as [|x l IH]; intros Hne; [contradiction|].
  destruct l as [|y l]; [reflexivity|].
  change (List.last (x :: y :: l) d) with (List.last (y :: l) d).
  rewrite <- IH by discriminate.
  cbn [length]. replace (Datatypes.S (Datatypes.S (length l)) - 1)%nat
    with (Datatypes.S (Datatypes.S (length l) - 1))%nat by lia.
  reflexivity.
Qed.

(** * Segments *)

Lemma offset_of_ok c : chunk_wf c -> chunk_Offset c = Ok (offset_of c).
Proof.
  intros H. destruct (chunk_Offset_wf c H) as (o & Ho & _).
  unfold offset_of. rewrite Ho. reflexivity.
Qed.

Lemma offset_of_range c : chunk_wf c -> in_int64 (offset_of c).
Proof.
  intros H. destruct (chunk_Offset_wf c H) as (o & Ho & Hr).
  unfold offset_of. rewrite Ho. exact Hr.
Qed.

Lemma data_of_ok c : chunk_wf c -> chunk_Data c = Ok (data_of c).
Proof. apply chunk_Data_wf. Qed.

Lemma offset_of_new p o : in_int64 o -> offset_of (newChunkOffset p o) = o.
Proof. intros H. unfold offset_of. rewrite newChunkOffset_Offset by assumption. reflexivity. Qed.

Lemma data_of_new p o : data_of (newChunkOffset p o) = p.
Proof.
  pose proof (newChunkOffset_Data p o) as H.
  rewrite data_of_ok in H by apply newChunkOffset_wf. congruence.
Qed.

Lemma len_new p o : len (newChunkOffset p o) = 8 + len p.
Proof.
  unfold len, newChunkOffset. rewrite length_app. cbn [binary.PutUint64 length]. lia.
Qed.

Lemma Segment_Limits_ok a w s :
  heap w !! a = Some s -> Forall chunk_wf (chunks s) ->
  Segment_Limits (Some a) w = Ok (limits_of (chunks s), w).
Proof.
  intros Hs Hwf. unfold Segment_Limits.
  rewrite (bind_ok _ _ _ _ _ (load_ok _ _ _ Hs)).
  destruct (chunks s) as [|c [|c' cs]] eqn:E.
  - reflexivity.
  - inversion Hwf; subst.
    rewrite (bind_ok _ _ _ _ _ (lift_ok _ _ _ (offset_of_ok c ltac:(assumption)))).
    reflexivity.
  - inversion Hwf as [|? ? Hc Hrest]; subst.
    rewrite (bind_ok _ _ w c w) by (apply lift_ok; reflexivity).
    rewrite (bind_ok _ _ _ _ _ (lift_ok _ _ _ (offset_of_ok c Hc))).
    set (l := c :: c' :: cs).
    assert (Hlast : l !! (length l - 1)%nat = Some (List.last l c)).
    { apply lookup_last_default. discriminate. }
    assert (Hwl : chunk_wf (List.last l c)).
    { rewrite Forall_lookup in Hwf. eapply Hwf. exact Hlast. }
    replace (len l - 1) with (Z.of_nat (length l - 1)) by (unfold len, l; cbn [length]; lia).
    rewrite (bind_ok _ _ _ _ _ (lift_ok _ _ _ (index_ok _ _ _ Hlast))).
    rewrite (bind_ok _ _ _ _ _ (lift_ok _ _ _ (offset_of_ok _ Hwl))).
    reflexivity.
Qed.

End Run.

(** * Offsets: claim C2 *)

(** C2 (the code departs from it).  [Before], [Equal] and [Within] are the
    numeric comparisons (lemmas [Offset_Before_spec], [Offset_Equal_spec],
    [Offset_Within_spec]), but [After] has the body of [Before]: it
    answers [a < b], so [After(1, 2)] holds and [After(2, 1)] does not. *)
Theorem C2_Offset_After_is_Before :
  (forall a b : Offset, Offset_After a b = Offset_Before a b)
  /\ Offset_After 1 2 = true
  /\ Offset_After 2 1 = false.
Proof.
  split; [reflexivity|].
  split; vm_compute; reflexivity.
Qed.

(** * Segment truncation: claim C1 *)

(** C1 (the code departs from it).  On the segment with chunks at offsets
    1, 2, 3, [Truncate(2)] leaves all three chunks in place, where the
    chunks with an offset greater than 2 are only the last one: the scan
    stops at the first chunk whose offset is before the given one. *)
Theorem C1_Segment_Truncate_keeps_older_chunks :
  Segment_Truncate (Some 0%nat) 2 world123 = Ok (tt, world123)
  /\ map offset_of (chunks seg123) = [1; 2; 3]
  /\ map offset_of (newer_than 2 (chunks seg123)) = [3].
Proof. vm_compute. repeat split; reflexivity. Qed.

(** * Chunk text encoding: claim C7 *)

(** C7.  For every payload and every offset, marshalling the chunk built
    from them succeeds, and unmarshalling the text (into any chunk
    variable) succeeds and gives the same chunk, whose offset and data are
    the ones it was built from. *)
Theorem C7_chunk_text_roundtrip (payload : list byte) (o : Offset) (c0 : chunk) :
  in_int64 o ->
  exists txt,
    chunk_MarshalText (newChunkOffset payload o) = Ok (txt, None)
    /\ chunk_UnmarshalText c0 txt = (newChunkOffset payload o, None)
    /\ chunk_Offset (newChunkOffset payload o) = Ok o
    /\ chunk_Data (newChunkOffset payload o) = Ok payload.
Proof.
  intros Ho.
  destruct (chunk_roundtrip (newChunkOffset payload o) c0 (newChunkOffset_wf _ _))
    as (txt & Hm & Hu & _).
  exists txt. repeat split; try assumption.
  - apply newChunkOffset_Offset. exact Ho.
  - apply newChunkOffset_Data.
Qed.

Lemma C7_chunk_text_roundtrip_witness :
  in_int64 1483228800000000000
  /\ exists txt,
      chunk_MarshalText (newChunkOffset [x68; x69] 1483228800000000000) = Ok (txt, None)
      /\ chunk_UnmarshalText [] txt = (newChunkOffset [x68; x69] 1483228800000000000, None)
      /\ chunk_Offset (newChunkOffset [x68; x69] 1483228800000000000) = Ok 1483228800000000000
      /\ chunk_Data (newChunkOffset [x68; x69] 1483228800000000000) = Ok [x68; x69].
Proof.
  assert (H : in_int64 1483228800000000000) by (unfold in_int64; lia).
  split; [exact H|].
  exact (C7_chunk_text_roundtrip [x68; x69] 1483228800000000000 [] H).
Defined.

(** * The empty in-memory sink: claim C10 *)

(** C10.  On an in-memory sink without segments, [LoadSegment(ZeroOffset)]
    and [Offsets()] index the empty slice and panic; so does the first
    [Next] of a reader over it, which therefore is no clean end of log. *)
Theorem C10_empty_MemorySink_panics (h : list Segment) (clk : nat -> Z) (t : nat) :
  let w := mkWorld h NewMemorySink clk t in
  MemorySink_LoadSegment ZeroOffset w = Panic
  /\ MemorySink_Offsets w = Panic
  /\ forall fuel, Reader_Next fuel NewReader w = Panic.
Proof.
  intros w. repeat split.
Qed.

(** * The closed logger: claim C9 *)

Section Closed.
Context {S : Type} `{Sink S}.

Lemma Logger_flush_fields (l l' : Logger) (w w' : World S) e :
  Logger_flush l w = Ok ((e, l'), w') ->
  segSize l' = segSize l /\ closed l' = closed l.
Proof.
  unfold Logger_flush, bind.
  destruct (Sink_WriteSegment (seg l) w) as [[[e0|] w1]| |]; try discriminate.
  - intros [= <- <- <-]. split; reflexivity.
  - unfold NewSegmentSize, alloc, ret. intros [= <- <- <-]. split; reflexivity.
Qed.

Lemma Logger_Close_closed (l l' : Logger) (w w' : World S) :
  closed l = false ->
  Logger_Close l w = Ok ((None, l'), w') ->
  closed l' = true /\ segSize l' = segSize l.
Proof.
  intros Hopen. unfold Logger_Close. rewrite Hopen. unfold bind.
  destruct (Logger_flush l w) as [[[ferr l1] w1]| |] eqn:Ef; try discriminate.
  destruct (Logger_flush_fields _ _ _ _ _ Ef) as [Hs _].
  destruct ferr; [discriminate|].
  destruct (Sink_Close w1) as [[[e|] w2]| |]; try discriminate.
  intros [= <- <-]. split; [reflexivity|exact Hs].
Qed.

(** C9.  After a successful [Close] of an open logger, in every later
    world: writing a payload no longer than the segment size fails with
    the logger-closed error (wrapped with the label of [Write]),
    [Flush] fails with the logger-closed error, and [Close] returns
    [nil]; none of them changes the logger or the world. *)
Theorem C9_closed_logger (l l' : Logger) (w w' : World S) :
  closed l = false ->
  Logger_Close l w = Ok ((None, l'), w') ->
  (forall fuel p w2,
      uint64 (len p) <= segSize l ->
      exists e,
        Logger_Write fuel l' p w2 = Ok ((0, Some e), l', w2)
        /\ e = errors_Wrap ErrLoggerClosed "write"
        /\ errors_Cause e = ErrLoggerClosed)
  /\ (forall w2, Logger_Flush l' w2 = Ok ((Some ErrLoggerClosed, l'), w2))
  /\ (forall w2, Logger_Close l' w2 = Ok ((None, l'), w2)).
Proof.
  intros Hopen Hclose.
  destruct (Logger_Close_closed _ _ _ _ Hopen Hclose) as [Hc Hs].
  repeat split.
  - intros fuel p w2 Hp. eexists. split; [|split; reflexivity].
    unfold Logger_Write. rewrite Hs.
    destruct (Z.gtb_spec (uint64 (len p)) (segSize l)); [lia|].
    rewrite Hc. reflexivity.
  - intros w2. unfold Logger_Flush. rewrite Hc. reflexivity.
  - intros w2. unfold Logger_Close. rewrite Hc. reflexivity.
Qed.

End Closed.

Lemma C9_closed_logger_witness :
  closed logger20 = false
  /\ Logger_Close logger20 (world20 (fun _ => 1))
     = Ok ((None, mkLogger 20 (Some 1%nat) true),
           mkWorld [mkSegment 20 [] (-1); mkSegment 20 [] (-1)]
                   NewMemorySink (fun _ => 1) 0%nat)
  /\ Logger_Flush (mkLogger 20 (Some 1%nat) true) (world20 (fun _ => 1))
     = Ok ((Some ErrLoggerClosed, mkLogger 20 (Some 1%nat) true),
           world20 (fun _ => 1)).
Proof.
  split; [reflexivity|]. split; [reflexivity|].
  exact (proj1 (proj2 (C9_closed_logger logger20 (mkLogger 20 (Some 1%nat) true)
                         (world20 (fun _ => 1))
                         (mkWorld [mkSegment 20 [] (-1); mkSegment 20 [] (-1)]
                                  NewMemorySink (fun _ => 1) 0%nat)
                         eq_refl eq_refl))
               (world20 (fun _ => 1))).
Defined.

(** * The capacity of a segment: claim C4 *)

Lemma rawSize_nonneg cs : 0 <= rawSize cs.
Proof.
  induction cs as [|c cs IH]; [cbn; lia|].
  cbn [rawSize fold_right]. fold (rawSize cs). unfold len. lia.
Qed.

Lemma rawSize_app cs cs' : rawSize (cs ++ cs') = rawSize cs + rawSize cs'.
Proof.
  induction cs as [|c cs IH]; [reflexivity|].
  cbn [app rawSize fold_right]. fold (rawSize (cs ++ cs')). fold (rawSize cs).
  rewrite IH. lia.
Qed.

Lemma uint64_add a b : uint64 (a + uint64 b) = uint64 (a + b).
Proof. unfold uint64. rewrite Zplus_mod_idemp_r. reflexivity. Qed.

Lemma uint64_add_l a b : uint64 (uint64 a + b) = uint64 (a + b).
Proof. unfold uint64. rewrite Zplus_mod_idemp_l. reflexivity. Qed.

Lemma remaining_sum cs n0 :
  fold_left (fun n c => uint64 (n + uint64 (len c))) cs (uint64 n0)
  = uint64 (n0 + rawSize cs).
Proof.
  revert n0. induction cs as [|c cs IH]; intros n0; cbn [fold_left rawSize fold_right].
  - rewrite Z.add_0_r. reflexivity.
  - rewrite uint64_add, uint64_add_l, IH. f_equal. fold (rawSize cs). lia.
Qed.

Lemma remaining_eq seg :
  remaining seg = int64 (uint64 (size seg - uint64 (rawSize (chunks seg)))).
Proof.
  unfold remaining. change 0 with (uint64 0) at 1.
  rewrite remaining_sum. reflexivity.
Qed.

Section Capacity.
Context {S : Type}.
Implicit Types (w : World S).

Lemma Segment_Write_refused w a seg p :
  heap w !! a = Some seg -> len p <> 0 -> len p > remaining seg ->
  Segment_Write (Some a) p w = Ok ((0, Some ErrNotEnoughSpace), w).
Proof.
  intros Hs Hp Hr. unfold Segment_Write.
  destruct (Z.eqb_spec (len p) 0); [contradiction|].
  rewrite (bind_ok _ _ _ _ _ (load_ok _ _ _ Hs)).
  destruct (Z.gtb_spec (len p) (remaining seg)); [reflexivity|lia].
Qed.

Lemma Segment_Write_accepted w a seg p :
  heap w !! a = Some seg -> len p <> 0 -> len p <= remaining seg ->
  Segment_Write (Some a) p w
  = Ok ((len p, None),
        mkWorld (<[a := mkSegment (size seg)
                          (chunks seg ++ [newChunkOffset p (int64 (clock w (ticks w)))])
                          (chunkIdx seg)]> (heap w))
                (sink w) (clock w) (Datatypes.S (ticks w))).
Proof.
  intros Hs Hp Hr. unfold Segment_Write.
  destruct (Z.eqb_spec (len p) 0); [contradiction|].
  rewrite (bind_ok _ _ _ _ _ (load_ok _ _ _ Hs)).
  destruct (Z.gtb_spec (len p) (remaining seg)); [lia|].
  unfold Segment_write, bind, NewOffset, load, store. cbn [heap sink clock ticks].
  rewrite Hs. apply lookup_lt_Some in Hs. cbn [heap sink clock ticks].
  destruct (decide (a < length (heap w))%nat); [reflexivity|lia].
Qed.

Lemma Segment_Write_empty w s : Segment_Write s [] w = Ok ((0, None), w).
Proof. reflexivity. Qed.

Lemma remaining_inv seg :
  in_uint64 (size seg) -> write_inv seg ->
  (chunks seg = [] /\ 2^63 <= size seg /\ remaining seg < 0)
  \/ (size seg < 2^63 /\ remaining seg = size seg - rawSize (chunks seg)).
Proof.
  unfold in_uint64. intros Hsz Hinv. rewrite remaining_eq.
  pose proof (rawSize_nonneg (chunks seg)) as Hnn.
  destruct (Z_lt_le_dec (size seg) (2^63)) as [Hlt|Hge].
  - right. split; [exact Hlt|].
    assert (Hraw : rawSize (chunks seg) <= size seg + 8).
    { destruct Hinv as [-> | [_ H]]; cbn; lia. }
    unfold uint64, int64. Z.div_mod_to_equations. lia.
  - left. destruct Hinv as [E | [H _]]; [|lia].
    rewrite E. cbn [rawSize fold_right]. repeat split; [lia|].
    unfold uint64, int64. Z.div_mod_to_equations. lia.
Qed.

Lemma writeAll_inv ps : forall w a seg,
  heap w !! a = Some seg -> in_uint64 (size seg) -> write_inv seg ->
  exists rs w' seg',
    writeAll (Some a) ps w = Ok (rs, w')
    /\ heap w' !! a = Some seg'
    /\ size seg' = size seg
    /\ write_inv seg'.
Proof.
  induction ps as [|p ps IH]; intros w a seg Hs Hsz Hinv.
  - exists [], w, seg. repeat split; assumption.
  - cbn [writeAll].
    assert (Hstep : exists r w1 seg1,
               Segment_Write (Some a) p w = Ok (r, w1)
               /\ heap w1 !! a = Some seg1 /\ size seg1 = size seg
               /\ write_inv seg1).
    { destruct (Z.eq_dec (len p) 0) as [Hp0|Hp0].
      - assert (p = []) as -> by (destruct p; [reflexivity|unfold len in Hp0; cbn in Hp0; lia]).
        exists (0, None), w, seg. repeat split; assumption.
      - destruct (Z_lt_le_dec (remaining seg) (len p)) as [Hr|Hr].
        + exists (0, Some ErrNotEnoughSpace), w, seg.
          split; [apply (Segment_Write_refused _ _ seg); [assumption|assumption|lia]|].
          repeat split; assumption.
        + eexists _, _, _.
          split; [apply (Segment_Write_accepted _ _ seg); assumption|].
          cbn [heap]. split; [apply list_lookup_insert_eq; eapply lookup_lt_Some; exact Hs|].
          split; [reflexivity|].
          right. cbn [size chunks].
          assert (0 < len p) by (unfold len in *; lia).
          destruct (remaining_inv seg Hsz Hinv) as [(_ & _ & Hneg)|[Hlt Hrem]]; [lia|].
          split; [exact Hlt|].
          rewrite rawSize_app. cbn [rawSize fold_right]. rewrite len_new. lia. }
    destruct Hstep as (r & w1 & seg1 & Hw & Hs1 & Hsz1 & Hinv1).
    destruct (IH w1 a seg1 Hs1 ltac:(rewrite Hsz1; exact Hsz) Hinv1)
      as (rs & w' & seg' & Hrun & Hs' & Hsz' & Hinv').
    exists (r :: rs), w', seg'.
    rewrite (bind_ok _ _ _ _ _ Hw), (bind_ok _ _ _ _ _ Hrun).
    repeat split; [assumption|congruence|assumption].
Qed.

(** C4, amended.  For every sequence of writes to an empty segment of
    capacity [C], the sum of the raw chunk lengths never exceeds
    [C + 8]: a payload is accepted when its own length fits the
    remaining capacity, and its chunk adds the eight bytes of offset on
    top.  A non-empty write whose payload is longer than the remaining
    capacity fails with [ErrNotEnoughSpace] and leaves the world, and so
    the segment, unchanged. *)
Theorem C4_capacity_up_to_header (w : World S) (a : nat) (seg : Segment)
    (ps : list (list byte)) :
  heap w !! a = Some seg ->
  chunks seg = [] ->
  in_uint64 (size seg) ->
  (exists rs w',
      writeAll (Some a) ps w = Ok (rs, w')
      /\ raw_within w' a (size seg + 8)
      /\ exists seg', heap w' !! a = Some seg' /\ size seg' = size seg)
  /\ (forall (w1 : World S) seg1 p,
         heap w1 !! a = Some seg1 -> len p <> 0 -> len p > remaining seg1 ->
         Segment_Write (Some a) p w1 = Ok ((0, Some ErrNotEnoughSpace), w1)).
Proof.
  intros Hs Hempty Hsz. split.
  - destruct (writeAll_inv ps w a seg Hs Hsz (or_introl Hempty))
      as (rs & w' & seg' & Hrun & Hs' & Hsz' & Hinv').
    exists rs, w'. split; [exact Hrun|]. split.
    + intros seg2 Hs2. rewrite Hs' in Hs2. injection Hs2 as <-.
      destruct Hinv' as [-> | [_ H]]; [cbn; unfold in_uint64 in Hsz; lia|].
      rewrite <- Hsz'. exact H.
    + exists seg'. split; assumption.
  - intros w1 seg1 p. apply Segment_Write_refused.
Qed.

End Capacity.

Lemma C4_capacity_up_to_header_witness :
  exists rs w',
    writeAll (Some 0%nat) [payload15 x41; payload15 x42] (world20 (fun _ => 1))
    = Ok (rs, w')
    /\ raw_within w' 0 (20 + 8).
Proof.
  destruct (C4_capacity_up_to_header (world20 (fun _ => 1)) 0 (mkSegment 20 [] (-1))
              [payload15 x41; payload15 x42] eq_refl eq_refl
              ltac:(unfold in_uint64; cbn; lia))
    as [(rs & w' & Hrun & Hraw & _) _].
  exists rs, w'. split; [exact Hrun|exact Hraw].
Defined.

(** C4 as stated fails: one write of 15 bytes to an empty segment of
    capacity 20 succeeds, and the segment then holds 23 raw bytes. *)
Lemma C4_counterexample :
  exists w',
    Segment_Write (Some 0%nat) (payload15 x41) (world20 (fun _ => 1))
    = Ok ((15, None), w')
    /\ ~ raw_within w' 0 20.
Proof.
  eexists. split; [vm_compute; reflexivity|].
  intros H. specialize (H _ eq_refl). vm_compute in H. apply H. reflexivity.
Qed.

(** * Serializing a segment: claim C8 *)

Lemma text_of_ok c :
  chunk_wf c ->
  chunk_MarshalText c = Ok (text_of c, None)
  /\ (forall c0, chunk_UnmarshalText c0 (text_of c) = (c, None))
  /\ Forall (fun b => b <> x0a) (text_of c)
  /\ text_of c <> [].
Proof.
  intros Hwf.
  destruct (chunk_roundtrip c [] Hwf) as (txt & Hm & _ & Hnl & Hne).
  unfold text_of. rewrite Hm. repeat split; try assumption.
  intros c0. destruct (chunk_roundtrip c c0 Hwf) as (txt' & Hm' & Hu' & _).
  congruence.
Qed.

Lemma int64_add_l a b : int64 (int64 a + b) = int64 (a + b).
Proof. unfold int64. Z.div_mod_to_equations. lia. Qed.

Lemma int64_add_r a b : int64 (a + int64 b) = int64 (a + b).
Proof. unfold int64. Z.div_mod_to_equations. lia. Qed.

Lemma len_app {A} (l l' : list A) : len (l ++ l') = len l + len l'.
Proof. unfold len. rewrite length_app. lia. Qed.

Lemma writeChunks_ok cs : forall n w,
  Forall chunk_wf cs ->
  writeChunks cs (int64 n) w = Ok (int64 (n + len (serialize cs)), w ++ serialize cs).
Proof.
  induction cs as [|c cs IH]; intros n w Hwf; cbn [writeChunks serialize flat_map].
  - unfold len. cbn. rewrite Z.add_0_r, app_nil_r. reflexivity.
  - inversion Hwf as [|? ? Hc Hcs]; subst.
    destruct (text_of_ok c Hc) as (Hm & _).
    rewrite Hm. cbn [res_bind].
    rewrite int64_add_l, IH by assumption.
    fold (serialize cs). rewrite !len_app, !app_assoc.
    f_equal. f_equal. f_equal. lia.
Qed.

Lemma encodedSize_ok cs : forall n,
  Forall chunk_wf cs ->
  encodedSize cs (int64 n) = Ok (int64 (n + len (serialize cs))).
Proof.
  induction cs as [|c cs IH]; intros n Hwf; cbn [encodedSize serialize flat_map].
  - unfold len. cbn. rewrite Z.add_0_r. reflexivity.
  - inversion Hwf as [|? ? Hc Hcs]; subst.
    destruct (text_of_ok c Hc) as (Hm & _).
    rewrite Hm. cbn [res_bind].
    rewrite int64_add_r, int64_add_l, IH by assumption.
    fold (serialize cs). rewrite !len_app.
    f_equal. f_equal. unfold len. cbn [length]. lia.
Qed.

Lemma Split_line l sep rest :
  Forall (fun b => b <> sep) l ->
  bytes.Split (l ++ sep :: rest) sep = l :: bytes.Split rest sep.
Proof.
  induction 1 as [|b l Hb Hl IH]; cbn [app bytes.Split].
  - rewrite (Byte.byte_dec_lb eq_refl). reflexivity.
  - destruct (Byte.eqb b sep) eqn:E; [apply Byte.byte_dec_bl in E; contradiction|].
    rewrite IH. reflexivity.
Qed.

Lemma Split_serialize cs :
  Forall chunk_wf cs ->
  bytes.Split (serialize cs) x0a = map text_of cs ++ [[]].
Proof.
  induction 1 as [|c cs Hc Hcs IH]; [reflexivity|].
  cbn [serialize flat_map map app]. fold (serialize cs).
  destruct (text_of_ok c Hc) as (_ & _ & Hnl & _).
  rewrite <- app_assoc. cbn [app].
  rewrite Split_line by assumption. rewrite IH. reflexivity.
Qed.

Lemma readRows_texts cs : forall i acc,
  Forall chunk_wf cs ->
  readRows (map text_of cs ++ [[]]) i acc = (acc ++ cs, None).
Proof.
  induction cs as [|c cs IH]; intros i acc Hwf; cbn [map app readRows].
  - cbn. rewrite app_nil_r. reflexivity.
  - inversion Hwf as [|? ? Hc Hcs]; subst.
    destruct (text_of_ok c Hc) as (_ & Hu & _ & Hne).
    destruct (Z.eqb_spec (len (text_of c)) 0) as [E|_].
    { destruct (text_of c); [contradiction|]. unfold len in E. cbn in E. lia. }
    rewrite Hu. rewrite IH by assumption. rewrite <- app_assoc. reflexivity.
Qed.

Section Serialize.
Context {S : Type}.
Implicit Types (w : World S).

Lemma Segment_WriteTo_ok w a seg :
  heap w !! a = Some seg -> Forall chunk_wf (chunks seg) ->
  Segment_WriteTo (Some a) [] w
  = Ok ((int64 (len (serialize (chunks seg))), None, serialize (chunks seg)), w).
Proof.
  intros Hs Hwf. unfold Segment_WriteTo.
  rewrite (bind_ok _ _ _ _ _ (load_ok _ _ _ Hs)).
  destruct (Z.eqb_spec (len (chunks seg)) 0) as [E|E].
  - assert (chunks seg = []) as -> by (destruct (chunks seg); [reflexivity|unfold len in E; cbn in E; lia]).
    reflexivity.
  - change 0 with (int64 0) at 1.
    erewrite bind_ok by (apply lift_ok; apply writeChunks_ok; exact Hwf).
    reflexivity.
Qed.

Lemma Segment_EncodedSize_ok w a seg :
  heap w !! a = Some seg -> Forall chunk_wf (chunks seg) ->
  Segment_EncodedSize (Some a) w
  = Ok ((int64 (len (serialize (chunks seg))), None), w).
Proof.
  intros Hs Hwf. unfold Segment_EncodedSize.
  rewrite (bind_ok _ _ _ _ _ (load_ok _ _ _ Hs)).
  change 0 with (int64 0) at 1.
  erewrite bind_ok by (apply lift_ok; apply encodedSize_ok; exact Hwf).
  reflexivity.
Qed.

Lemma Segment_ReadFrom_serialized w g gseg cs :
  heap w !! g = Some gseg -> chunks gseg = [] -> Forall chunk_wf cs ->
  Segment_ReadFrom (Some g) (serialize cs) w
  = Ok ((len (serialize cs), None),
        with_heap w (<[g := mkSegment (size gseg) cs (chunkIdx gseg)]> (heap w))).
Proof.
  intros Hg Hempty Hwf. unfold Segment_ReadFrom.
  rewrite (bind_ok _ _ _ _ _ (load_ok _ _ _ Hg)).
  rewrite Hempty. change (negb (len (@nil chunk) =? 0)) with false. cbv iota.
  rewrite Split_serialize, readRows_texts by assumption. cbn [app].
  erewrite bind_ok by (eapply store_ok; exact Hg).
  reflexivity.
Qed.

(** C8.  For every segment (of well-formed chunks), [WriteTo] succeeds
    and yields some bytes [buf]; [EncodedSize] returns the same count as
    [WriteTo], which is the length of [buf] (as an [int64]); and
    [ReadFrom] on [buf] into an empty segment succeeds, reads all of
    [buf], and leaves that segment with the chunk sequence of the
    original. *)
Theorem C8_segment_serialize_roundtrip (w : World S) (a g : nat)
    (seg gseg : Segment) :
  heap w !! a = Some seg ->
  Forall chunk_wf (chunks seg) ->
  heap w !! g = Some gseg ->
  chunks gseg = [] ->
  exists buf w',
    Segment_WriteTo (Some a) [] w = Ok ((int64 (len buf), None, buf), w)
    /\ Segment_EncodedSize (Some a) w = Ok ((int64 (len buf), None), w)
    /\ (len buf <= MaxInt64 -> int64 (len buf) = len buf)
    /\ Segment_ReadFrom (Some g) buf w = Ok ((len buf, None), w')
    /\ exists gseg', heap w' !! g = Some gseg' /\ chunks gseg' = chunks seg.
Proof.
  intros Hs Hwf Hg Hempty.
  exists (serialize (chunks seg)). eexists.
  split; [apply Segment_WriteTo_ok; assumption|].
  split; [apply Segment_EncodedSize_ok; assumption|].
  split.
  { intros Hfit. apply int64_id. unfold in_int64, MaxInt64 in *. unfold len in *. lia. }
  split; [apply (Segment_ReadFrom_serialized w g gseg); assumption|].
  eexists. split.
  - cbn [with_heap heap]. apply list_lookup_insert_eq. eapply lookup_lt_Some. exact Hg.
  - reflexivity.
Qed.

End Serialize.

Lemma C8_segment_serialize_roundtrip_witness :
  exists buf w',
    Segment_WriteTo (Some 0%nat) [] (mkWorld [seg123; mkSegment 0 [] 0] NewMemorySink (fun _ => 0) 0%nat)
    = Ok ((int64 (len buf), None, buf),
          mkWorld [seg123; mkSegment 0 [] 0] NewMemorySink (fun _ => 0) 0%nat)
    /\ Segment_ReadFrom (Some 1%nat) buf
         (mkWorld [seg123; mkSegment 0 [] 0] NewMemorySink (fun _ => 0) 0%nat)
       = Ok ((len buf, None), w')
    /\ exists gseg', heap w' !! 1%nat = Some gseg' /\ chunks gseg' = chunks seg123.
Proof.
  destruct (C8_segment_serialize_roundtrip
              (mkWorld [seg123; mkSegment 0 [] 0] NewMemorySink (fun _ => 0) 0%nat)
              0 1 seg123 (mkSegment 0 [] 0) eq_refl
              ltac:(repeat constructor; unfold chunk_wf; vm_compute; discriminate)
              eq_refl eq_refl)
    as (buf & w' & Hw & _ & _ & Hr & Hg).
  exists buf, w'. split; [exact Hw|]. split; [exact Hr|exact Hg].
Defined.

(** * Truncating the in-memory sink: claim C3 *)

Lemma limits_of_range cs :
  Forall chunk_wf cs ->
  in_int64 (fst (limits_of cs)) /\ in_int64 (snd (limits_of cs)).
Proof.
  intros Hwf. destruct cs as [|c cs]; cbn [limits_of fst snd].
  - unfold in_int64, ZeroOffset. lia.
  - split.
    + apply offset_of_range. inversion Hwf; assumption.
    + apply offset_of_range.
      assert (Hl : (c :: cs) !! (length (c :: cs) - 1)%nat = Some (List.last (c :: cs) c))
        by (apply lookup_last_default; discriminate).
      rewrite Forall_lookup in Hwf. eapply Hwf. exact Hl.
Qed.









Lemma expired_prefix_le segs o : (expired_prefix segs o <= length segs)%nat.
Proof.
  induction segs as [|s segs IH]; cbn; [lia|].
  destruct (newest_of s <? o); cbn; lia.
Qed.


(** * Replaying the in-memory sink: claim C5 *)

(** ** Which segment [LoadSegment] picks *)

Lemma loadScan_spec addrs segs : forall (w : World MemorySink) x,
  Forall2 (fun a s => exists s', heap w !! a = Some s' /\ chunks s' = chunks s) addrs segs ->
  Forall (fun s => Forall chunk_wf (chunks s)) segs ->
  in_int64 x ->
  loadScan (map Some addrs) x w
  = Ok (match scan_pos segs x with
        | Some p => (addrs !! p, None)
        | None => (None, Some io_EOF)
        end, w).
Proof.
  intros w x H. induction H as [|a s addrs segs (s' & Ha & Hcs) Hrest IH]; intros Hwf Hx.
  - reflexivity.
  - inversion Hwf as [|? ? Hs Hss]; subst.
    cbn [map loadScan scan_pos].
    assert (Hs' : Forall chunk_wf (chunks s')) by (rewrite Hcs; exact Hs).
    rewrite (bind_ok _ _ _ _ _ (Segment_Limits_ok a w s' Ha Hs')).
    rewrite Hcs. unfold oldest_of, newest_of.
    destruct (limits_of_range _ Hs) as [Hlo Hhi].
    destruct (limits_of (chunks s)) as [lo hi]. cbn [fst snd] in *.
    rewrite Offset_Before_spec by assumption. unfold Offset_Within.
    destruct ((lo <=? x) && (x <=? hi) || (x <? lo)).
    + reflexivity.
    + rewrite IH by assumption.
      destruct (scan_pos segs x); reflexivity.
Qed.

Lemma boundaries_later s segs :
  Forall range_ok (s :: segs) -> boundaries_increase (s :: segs) ->
  Forall (fun s' => newest_of s < oldest_of s') segs.
Proof.
  revert s. induction segs as [|s1 segs IH]; intros s Hr Hb; [constructor|].
  destruct Hb as [H01 Hb].
  inversion Hr as [|? ? Hs Hr1]; subst.
  constructor; [exact H01|].
  specialize (IH s1 Hr1 Hb).
  inversion Hr1 as [|? ? (_ & Hs1 & _) _]; subst.
  eapply Forall_impl; [|exact IH]. cbn. intros s' Hs'. lia.
Qed.

Lemma scan_pos_next segs : forall i s,
  Forall range_ok segs -> boundaries_increase segs ->
  segs !! i = Some s ->
  scan_pos segs (newest_of s + 1)
  = if (Datatypes.S i <? length segs)%nat then Some (Datatypes.S i) else None.
Proof.
  induction segs as [|s0 segs IH]; intros i s Hr Hb Hi; [rewrite lookup_nil in Hi; discriminate|].
  pose proof (boundaries_later s0 segs Hr Hb) as Hlater.
  inversion Hr as [|? ? (Hne0 & Hrange0 & Hmax0) Hr']; subst.
  destruct Hb as [Hb0 Hb'].
  cbn [scan_pos length].
  destruct i as [|i].
  - cbn in Hi. injection Hi as <-.
    destruct (Z.leb_spec (oldest_of s0) (newest_of s0 + 1)); [|lia].
    destruct (Z.leb_spec (newest_of s0 + 1) (newest_of s0)); [lia|].
    destruct (Z.ltb_spec (newest_of s0 + 1) (oldest_of s0)); [lia|].
    cbn [andb orb].
    destruct segs as [|s1 segs]; [reflexivity|].
    cbn [scan_pos length].
    inversion Hr' as [|? ? (_ & Hrange1 & _) _]; subst.
    destruct (Z.leb_spec (oldest_of s1) (newest_of s0 + 1));
      destruct (Z.leb_spec (newest_of s0 + 1) (newest_of s1));
      destruct (Z.ltb_spec (newest_of s0 + 1) (oldest_of s1)); cbn; try reflexivity; lia.
  - cbn in Hi.
    assert (Hlt : newest_of s0 < oldest_of s).
    { rewrite Forall_lookup in Hlater. eapply Hlater. exact Hi. }
    assert (Hrs : range_ok s) by (rewrite Forall_lookup in Hr'; eapply Hr'; exact Hi).
    destruct Hrs as (_ & Hrange & _).
    destruct (Z.leb_spec (oldest_of s0) (newest_of s + 1)); [|lia].
    destruct (Z.leb_spec (newest_of s + 1) (newest_of s0)); [lia|].
    destruct (Z.ltb_spec (newest_of s + 1) (oldest_of s0)); [lia|].
    cbn [andb orb].
    rewrite (IH i s Hr' Hb' Hi).
    replace (Datatypes.S (Datatypes.S i) <? Datatypes.S (length segs))%nat
      with (Datatypes.S i <? length segs)%nat
      by (destruct (Nat.ltb_spec (Datatypes.S i) (length segs));
          destruct (Nat.ltb_spec (Datatypes.S (Datatypes.S i)) (Datatypes.S (length segs))); lia).
    destruct (Datatypes.S i <? length segs)%nat; reflexivity.
Qed.

(** ** One step of the reader *)

Lemma with_heap_id {S} (w : World S) : with_heap w (heap w) = w.
Proof. destruct w; reflexivity. Qed.

Lemma Segment_Next_more {S} (w : World S) a sz cs idx :
  heap w !! a = Some (mkSegment sz cs idx) -> idx + 1 <> len cs ->
  Segment_Next (Some a) w
  = Ok (true, with_heap w (<[a := mkSegment sz cs (idx + 1)]> (heap w))).
Proof.
  intros Ha Hne. unfold Segment_Next.
  rewrite (bind_ok _ _ _ _ _ (load_ok _ _ _ Ha)). cbn [chunkIdx chunks size].
  destruct (Z.eqb_spec (idx + 1) (len cs)); [contradiction|].
  erewrite bind_ok by (eapply store_ok; exact Ha). reflexivity.
Qed.

Lemma Segment_Next_done {S} (w : World S) a sz cs idx :
  heap w !! a = Some (mkSegment sz cs idx) -> idx + 1 = len cs ->
  Segment_Next (Some a) w = Ok (false, w).
Proof.
  intros Ha He. unfold Segment_Next.
  rewrite (bind_ok _ _ _ _ _ (load_ok _ _ _ Ha)). cbn [chunkIdx chunks size].
  destruct (Z.eqb_spec (idx + 1) (len cs)); [reflexivity|contradiction].
Qed.

Lemma Segment_CurrentReadOffset_ok {S} (w : World S) a seg c :
  heap w !! a = Some seg -> index (chunks seg) (chunkIdx seg) = Ok c -> chunk_wf c ->
  Segment_CurrentReadOffset (Some a) w = Ok (offset_of c, w).
Proof.
  intros Ha Hix Hwf. unfold Segment_CurrentReadOffset.
  rewrite (bind_ok _ _ _ _ _ (load_ok _ _ _ Ha)).
  rewrite (bind_ok _ _ _ _ _ (lift_ok _ _ _ Hix)).
  apply lift_ok. apply offset_of_ok. exact Hwf.
Qed.

Lemma Segment_Chunk_ok {S} (w : World S) a seg c :
  heap w !! a = Some seg -> index (chunks seg) (chunkIdx seg) = Ok c ->
  Segment_Chunk (Some a) w = Ok (c, w).
Proof.
  intros Ha Hix. unfold Segment_Chunk.
  rewrite (bind_ok _ _ _ _ _ (load_ok _ _ _ Ha)).
  apply lift_ok. exact Hix.
Qed.

Section Step.
Context {S : Type} `{Sink S}.

Lemma read_step (w : World S) a sz cs idx c r fuel :
  heap w !! a = Some (mkSegment sz cs idx) ->
  0 <= idx + 1 ->
  cs !! Z.to_nat (idx + 1) = Some c ->
  chunk_wf c ->
  r_seg r = Some a ->
  let r1 := mkReader (offset_of c) (Some a) (r_err r) in
  let w1 := with_heap w (<[a := mkSegment sz cs (idx + 1)]> (heap w)) in
  nextDataChunk (Datatypes.S fuel) r w = Ok ((true, r1), w1)
  /\ Reader_Data r1 w1 = Ok (data_of c, w1).
Proof.
  intros Ha Hidx Hc Hwf Hr r1 w1.
  assert (Hne : idx + 1 <> len cs).
  { apply lookup_lt_Some in Hc. unfold len. lia. }
  assert (Ha1 : heap w1 !! a = Some (mkSegment sz cs (idx + 1))).
  { unfold w1. cbn [with_heap heap]. apply list_lookup_insert_eq.
    eapply lookup_lt_Some. exact Ha. }
  assert (Hix : index cs (idx + 1) = Ok c).
  { rewrite <- (Z2Nat.id (idx + 1)) by lia. apply index_ok. exact Hc. }
  split.
  - cbn [nextDataChunk]. rewrite Hr.
    rewrite (bind_ok _ _ _ _ _ (Segment_Next_more w a sz cs idx Ha Hne)).
    fold w1.
    rewrite (bind_ok _ _ _ _ _ (Segment_CurrentReadOffset_ok w1 a _ c Ha1 Hix Hwf)).
    reflexivity.
  - unfold Reader_Data. cbn [r_seg r1].
    rewrite (bind_ok _ _ _ _ _ (Segment_Chunk_ok w1 a _ c Ha1 Hix)).
    apply lift_ok. apply data_of_ok. exact Hwf.
Qed.

Lemma nextDataChunk_done (w : World S) r seg fuel :
  Segment_Next (r_seg r) w = Ok (false, w) ->
  Reader_loadSegment (int64 (r_off r + 1)) w = Ok ((seg, None), w) ->
  nextDataChunk (Datatypes.S fuel) r w
  = match seg with
    | None => Ok ((false, r), w)
    | Some _ => nextDataChunk fuel (mkReader (r_off r) seg (r_err r)) w
    end.
Proof.
  intros Hn Hl. cbn [nextDataChunk]. unfold bind at 1. rewrite Hn.
  unfold bind at 1. rewrite Hl. destruct seg; reflexivity.
Qed.

End Step.

(** ** The cursors along a replay *)

Lemma pos_inv_advance addrs segs h i idx a s :
  NoDup addrs ->
  addrs !! i = Some a -> segs !! i = Some s ->
  pos_inv addrs segs h i idx ->
  pos_inv addrs segs (<[a := mkSegment (size s) (chunks s) (idx + 1)]> h) i (idx + 1).
Proof.
  intros Hnd Ha Hs Hinv k a' s' Ha' Hs'.
  destruct (Nat.eq_dec k i) as [->|Hki].
  - rewrite Ha in Ha'. rewrite Hs in Hs'. injection Ha' as <-. injection Hs' as <-.
    rewrite Nat.ltb_irrefl, Nat.eqb_refl.
    apply list_lookup_insert_eq. eapply lookup_lt_Some. apply (Hinv i a s Ha Hs).
  - assert (a <> a').
    { intros <-. apply Hki. eapply NoDup_lookup; eassumption. }
    rewrite list_lookup_insert_ne by assumption.
    specialize (Hinv k a' s' Ha' Hs').
    destruct (Nat.eqb_spec k i); [contradiction|]. exact Hinv.
Qed.

Lemma pos_inv_switch addrs segs h i s :
  segs !! i = Some s ->
  pos_inv addrs segs h i (len (chunks s) - 1) ->
  pos_inv addrs segs h (Datatypes.S i) (-1).
Proof.
  intros Hs Hinv k a' s' Ha' Hs'. specialize (Hinv k a' s' Ha' Hs').
  destruct (Nat.ltb_spec k (Datatypes.S i)) as [Hlt|Hge].
  - destruct (Nat.ltb_spec k i); [exact Hinv|].
    assert (k = i) as -> by lia. rewrite Nat.eqb_refl in Hinv.
    rewrite Hs in Hs'. injection Hs' as <-. exact Hinv.
  - destruct (Nat.ltb_spec k i); [lia|].
    destruct (Nat.eqb_spec k i); [lia|].
    destruct (Nat.eqb_spec k (Datatypes.S i)); exact Hinv.
Qed.

Lemma pos_inv_chunks addrs segs h i idx :
  length addrs = length segs ->
  pos_inv addrs segs h i idx ->
  Forall2 (fun a s => exists s', h !! a = Some s' /\ chunks s' = chunks s) addrs segs.
Proof.
  intros Hlen Hinv. apply Forall2_same_length_lookup. split; [exact Hlen|].
  intros k a s Ha Hs. eexists. split; [apply (Hinv k a s Ha Hs)|reflexivity].
Qed.

Lemma newest_of_last s c :
  chunks s !! (length (chunks s) - 1)%nat = Some c -> newest_of s = offset_of c.
Proof.
  unfold newest_of, limits_of. destruct (chunks s) as [|c0 cs] eqn:E.
  - rewrite lookup_nil. discriminate.
  - cbn [snd]. rewrite (lookup_last_default (c0 :: cs) c0) by discriminate.
    intros [= <-]. reflexivity.
Qed.

Lemma rest_from_cons segs i idx s c :
  segs !! i = Some s -> 0 <= idx + 1 ->
  chunks s !! Z.to_nat (idx + 1) = Some c ->
  rest_from segs i idx = c :: rest_from segs i (idx + 1).
Proof.
  intros Hs Hidx Hc. unfold rest_from. rewrite Hs.
  rewrite (drop_S _ _ _ Hc). cbn [app].
  replace (Z.to_nat (idx + 1 + 1)) with (Datatypes.S (Z.to_nat (idx + 1))) by lia.
  reflexivity.
Qed.

Lemma rest_from_switch segs i s :
  segs !! i = Some s ->
  rest_from segs i (len (chunks s) - 1) = rest_from segs (Datatypes.S i) (-1).
Proof.
  intros Hs. unfold rest_from. rewrite Hs.
  replace (Z.to_nat (len (chunks s) - 1 + 1)) with (length (chunks s)) by (unfold len; lia).
  rewrite drop_all. cbn [app].
  change (Z.to_nat (-1 + 1)) with 0%nat.
  destruct (segs !! Datatypes.S i) as [s1|] eqn:E1.
  - rewrite (drop_S _ _ _ E1). cbn [map concat]. rewrite drop_0. reflexivity.
  - rewrite drop_ge by (apply lookup_ge_None; exact E1).
    rewrite drop_ge by (apply lookup_ge_None in E1; lia). reflexivity.
Qed.

(** ** The replay from a position *)

Section Replay.
Variable w0 : World MemorySink.
Variable addrs : list nat.
Variable segs : list Segment.
Hypothesis Hsink : segments (sink w0) = map Some addrs.
Hypothesis Hlen : length addrs = length segs.
Hypothesis Hnd : NoDup addrs.
Hypothesis Hwf : Forall (fun s => Forall chunk_wf (chunks s)) segs.
Hypothesis Hrange : Forall range_ok segs.
Hypothesis Hbound : boundaries_increase segs.

(** Past the last chunk of the [i]-th segment: [LoadSegment] of the
    next offset. *)
Lemma load_next h i idx s :
  segs !! i = Some s ->
  pos_inv addrs segs h i idx ->
  Reader_loadSegment (int64 (newest_of s + 1)) (with_heap w0 h)
  = Ok ((addrs !! Datatypes.S i, None), with_heap w0 h).
Proof.
  intros Hs Hinv.
  assert (Hr : range_ok s) by (rewrite Forall_lookup in Hrange; eapply Hrange; exact Hs).
  destruct Hr as (_ & Hr1 & Hr2). unfold MaxInt64 in Hr2.
  assert (Hx : in_int64 (newest_of s + 1)) by (unfold in_int64; lia).
  rewrite (int64_id _ Hx).
  unfold Reader_loadSegment. cbn [Sink_LoadSegment MemorySink_Sink].
  assert (Hload : MemorySink_LoadSegment (newest_of s + 1) (with_heap w0 h)
                  = Ok (match scan_pos segs (newest_of s + 1) with
                        | Some p => (addrs !! p, None)
                        | None => (None, Some io_EOF)
                        end, with_heap w0 h)).
  { unfold MemorySink_LoadSegment.
    rewrite (bind_ok _ _ _ _ _ (eq_refl : get_sink (with_heap w0 h) = Ok (sink w0, with_heap w0 h))).
    rewrite Offset_Equal_spec by (assumption || (unfold in_int64, ZeroOffset; lia)).
    destruct (Z.eqb_spec (newest_of s + 1) ZeroOffset) as [E|_]; [unfold ZeroOffset in E; lia|].
    rewrite Hsink. apply loadScan_spec; try assumption.
    cbn [with_heap heap]. eapply pos_inv_chunks; eassumption. }
  rewrite (bind_ok _ _ _ _ _ Hload).
  rewrite (scan_pos_next segs i s Hrange Hbound Hs).
  destruct (Nat.ltb_spec (Datatypes.S i) (length segs)) as [Hlt|Hge].
  - destruct (lookup_lt_is_Some_2 addrs (Datatypes.S i) ltac:(lia)) as [a1 Ha1].
    rewrite Ha1. reflexivity.
  - rewrite (proj2 (lookup_ge_None addrs (Datatypes.S i)) ltac:(lia)). reflexivity.
Qed.

Lemma replay_from n : forall i idx h a s off fuel,
  addrs !! i = Some a -> segs !! i = Some s ->
  pos_inv addrs segs h i idx ->
  -1 <= idx < len (chunks s) ->
  (0 <= idx -> exists c, chunks s !! Z.to_nat idx = Some c /\ off = offset_of c) ->
  length (rest_from segs i idx) = n ->
  (n + 2 <= fuel)%nat ->
  exists r' w',
    replay fuel (mkReader off (Some a) None) (with_heap w0 h)
    = Ok ((map entry_of (rest_from segs i idx), r'), w')
    /\ r_err r' = None.
Proof.
  induction n as [|n IH]; intros i idx h a s off fuel Ha Hs Hinv Hidx Hoff Hn Hfuel;
    assert (Hpos : 0 < len (chunks s))
      by (assert (Hr : range_ok s) by (rewrite Forall_lookup in Hrange; eapply Hrange; exact Hs);
          destruct Hr as (Hne & _); destruct (chunks s); [contradiction|unfold len; cbn; lia]).
  - (* nothing left: the last chunk of the last segment has been read *)
    destruct fuel as [|fuel]; [lia|].
    assert (Hrest : rest_from segs i idx = []) by (destruct (rest_from segs i idx); [reflexivity|discriminate]).
    rewrite Hrest.
    assert (Hend : idx + 1 = len (chunks s) /\ (length segs <= Datatypes.S i)%nat).
    { unfold rest_from in Hrest. rewrite Hs in Hrest.
      apply app_eq_nil in Hrest as [Hd Hc]. split.
      - apply (f_equal (@length _)) in Hd. rewrite length_drop in Hd. cbn in Hd.
        unfold len in *. lia.
      - destruct (segs !! Datatypes.S i) as [s1|] eqn:E1; [|apply lookup_ge_None; exact E1].
        exfalso. rewrite (drop_S _ _ _ E1) in Hc. cbn [map concat] in Hc.
        apply app_eq_nil in Hc as [Hc _].
        assert (Hr1 : range_ok s1) by (rewrite Forall_lookup in Hrange; eapply Hrange; exact E1).
        destruct Hr1 as (Hne & _). contradiction. }
    destruct Hend as [Hlast Hi].
    destruct (Hoff ltac:(unfold len in *; lia)) as (c & Hc & ->).
    assert (Hnew : newest_of s = offset_of c).
    { apply newest_of_last. replace (length (chunks s) - 1)%nat with (Z.to_nat idx)
        by (unfold len in *; lia). exact Hc. }
    exists (mkReader (offset_of c) (Some a) None), (with_heap w0 h).
    split; [|reflexivity].
    cbn [replay]. unfold Reader_Next. cbn [r_seg nextDataChunk].
    specialize (Hinv i a s Ha Hs) as Hh.
    rewrite Nat.ltb_irrefl, Nat.eqb_refl in Hh.
    pose proof (load_next h i idx s Hs Hinv) as Hload.
    rewrite (proj2 (lookup_ge_None addrs (Datatypes.S i)) ltac:(lia)), Hnew in Hload.
    rewrite (bind_ok _ _ _ _ _
               (nextDataChunk_done (with_heap w0 h)
                  (mkReader (offset_of c) (Some a) None) None fuel
                  (Segment_Next_done (with_heap w0 h) a _ _ idx Hh Hlast) Hload)).
    reflexivity.
  - destruct fuel as [|fuel]; [lia|].
    specialize (Hinv i a s Ha Hs) as Hh.
    rewrite Nat.ltb_irrefl, Nat.eqb_refl in Hh.
    assert (Hwfs : Forall chunk_wf (chunks s)) by (rewrite Forall_lookup in Hwf; eapply Hwf; exact Hs).
    destruct (Z.eq_dec (idx + 1) (len (chunks s))) as [Hlast|Hmore].
    + (* the segment is finished: on to the next one *)
      assert (Hidx' : idx = len (chunks s) - 1) by lia.
      destruct (Hoff ltac:(unfold len in *; lia)) as (c & Hc & ->).
      assert (Hnew : newest_of s = offset_of c).
      { apply newest_of_last. replace (length (chunks s) - 1)%nat with (Z.to_nat idx)
          by (unfold len in *; lia). exact Hc. }
      rewrite Hidx' in *. rewrite (rest_from_switch segs i s Hs) in *.
      destruct (segs !! Datatypes.S i) as [s1|] eqn:E1.
      2:{ exfalso. unfold rest_from in Hn. rewrite E1 in Hn.
          rewrite drop_ge in Hn by (apply lookup_ge_None in E1; lia). discriminate. }
      destruct (lookup_lt_is_Some_2 addrs (Datatypes.S i)
                  ltac:(rewrite Hlen; eapply lookup_lt_Some; exact E1)) as [a1 Ha1].
      assert (Hinv1 : pos_inv addrs segs h (Datatypes.S i) (-1))
        by (eapply pos_inv_switch; eassumption).
      assert (Hr1 : range_ok s1) by (rewrite Forall_lookup in Hrange; eapply Hrange; exact E1).
      destruct Hr1 as (Hne1 & _).
      destruct (chunks s1) as [|c1 cs1] eqn:Ecs1; [contradiction|].
      assert (Hwf1 : chunk_wf c1).
      { rewrite Forall_lookup in Hwf. specialize (Hwf _ _ E1). rewrite Ecs1 in Hwf.
        inversion Hwf; assumption. }
      specialize (Hinv1 (Datatypes.S i) a1 s1 Ha1 E1) as Hh1.
      rewrite Nat.ltb_irrefl, Nat.eqb_refl, Ecs1 in Hh1.
      destruct fuel as [|fuel]; [lia|].
      destruct (read_step (with_heap w0 h) a1 (size s1) (c1 :: cs1) (-1) c1
                  (mkReader (offset_of c) (Some a1) None) fuel
                  Hh1 ltac:(lia) eq_refl Hwf1 eq_refl) as [Hnext Hdata].
      cbn [r_err with_heap heap] in Hnext, Hdata.
      pose proof (rest_from_cons segs (Datatypes.S i) (-1) s1 c1 E1 ltac:(lia)
                    ltac:(rewrite Ecs1; reflexivity)) as Hcons.
      rewrite Hcons in Hn. rewrite Hcons.
      cbn [length] in Hn.
      destruct (IH (Datatypes.S i) (-1 + 1)
                  (<[a1 := mkSegment (size s1) (c1 :: cs1) (-1 + 1)]> h)
                  a1 s1 (offset_of c1) (Datatypes.S fuel) Ha1 E1)
        as (r' & w' & Hrep & Herr).
      { rewrite <- Ecs1. apply pos_inv_advance; assumption. }
      { rewrite Ecs1. unfold len. cbn [length]. lia. }
      { intros _. exists c1. rewrite Ecs1. split; reflexivity. }
      { lia. }
      { lia. }
      exists r', w'. split; [|exact Herr].
      cbn [replay]. unfold Reader_Next. cbn [r_seg].
      assert (Hstep : nextDataChunk (Datatypes.S (Datatypes.S fuel))
                        (mkReader (offset_of c) (Some a) None) (with_heap w0 h)
                      = Ok ((true, mkReader (offset_of c1) (Some a1) None),
                            with_heap w0 (<[a1 := mkSegment (size s1) (c1 :: cs1) (-1 + 1)]> h))).
      { pose proof (load_next h i _ s Hs Hinv) as Hload.
        rewrite Ha1, Hnew in Hload.
        rewrite (nextDataChunk_done (with_heap w0 h)
                   (mkReader (offset_of c) (Some a) None) (Some a1) (Datatypes.S fuel)
                   (Segment_Next_done (with_heap w0 h) a _ _ _ Hh ltac:(lia)) Hload).
        exact Hnext. }
      rewrite (bind_ok _ _ _ _ _ Hstep).
      rewrite (bind_ok _ _ _ _ _ Hdata).
      rewrite (bind_ok _ _ _ _ _ Hrep).
      reflexivity.
    + (* the next chunk of the current segment *)
      assert (Hlt : (Z.to_nat (idx + 1) < length (chunks s))%nat) by (unfold len in *; lia).
      destruct (lookup_lt_is_Some_2 _ _ Hlt) as [c Hc].
      assert (Hwfc : chunk_wf c) by (rewrite Forall_lookup in Hwfs; eapply Hwfs; exact Hc).
      destruct (read_step (with_heap w0 h) a (size s) (chunks s) idx c
                  (mkReader off (Some a) None) fuel
                  Hh ltac:(lia) Hc Hwfc eq_refl) as [Hnext Hdata].
      cbn [r_err with_heap heap] in Hnext, Hdata.
      pose proof (rest_from_cons segs i idx s c Hs ltac:(lia) Hc) as Hcons.
      rewrite Hcons in Hn. rewrite Hcons.
      cbn [length] in Hn.
      destruct (IH i (idx + 1)
                  (<[a := mkSegment (size s) (chunks s) (idx + 1)]> h)
                  a s (offset_of c) fuel Ha Hs)
        as (r' & w' & Hrep & Herr).
      { apply pos_inv_advance; assumption. }
      { unfold len in *. lia. }
      { intros _. exists c. split; [exact Hc|reflexivity]. }
      { lia. }
      { lia. }
      exists r', w'. split; [|exact Herr].
      cbn [replay]. unfold Reader_Next. cbn [r_seg].
      rewrite (bind_ok _ _ _ _ _ Hnext).
      rewrite (bind_ok _ _ _ _ _ Hdata).
      rewrite (bind_ok _ _ _ _ _ Hrep).
      reflexivity.
Qed.

End Replay.

(** The replay of a well-ordered in-memory sink shows every chunk. *)
Lemma replay_MemorySink_all (w : World MemorySink) (addrs : list nat)
    (segs : list Segment) (fuel : nat) :
  sink_holds w addrs segs ->
  NoDup addrs ->
  segs <> [] ->
  Forall unread segs ->
  Forall range_ok segs ->
  boundaries_increase segs ->
  (length (concat (map chunks segs)) + 2 <= fuel)%nat ->
  exists r w',
    replay fuel NewReader w
    = Ok ((map entry_of (concat (map chunks segs)), r), w')
    /\ Reader_Error r = None.
Proof.
  intros (Hsink & Hlook & Hwf) Hnd Hne Hunread Hrange Hbound Hfuel.
  assert (Hlen : length addrs = length segs) by (eapply Forall2_length; exact Hlook).
  destruct segs as [|s0 segs']; [contradiction|].
  destruct addrs as [|a0 addrs']; [discriminate|].
  set (segs := s0 :: segs') in *. set (addrs := a0 :: addrs') in *.
  assert (Hinv : pos_inv addrs segs (heap w) 0 (-1)).
  { intros k a s Ha Hs.
    rewrite Forall2_lookup in Hlook. specialize (Hlook k). rewrite Ha, Hs in Hlook.
    inversion Hlook as [? ? Hh|]; subst.
    rewrite Forall_lookup in Hunread. specialize (Hunread k s Hs). unfold unread in Hunread.
    rewrite Hh. destruct s as [sz cs ix]. cbn in *. subst ix.
    destruct (k =? 0)%nat; reflexivity. }
  assert (Hrange0 : range_ok s0) by (inversion Hrange; assumption).
  destruct (replay_from w addrs segs Hsink Hlen Hnd Hwf Hrange Hbound
              (length (rest_from segs 0 (-1))) 0%nat (-1) (heap w) a0 s0 0 fuel
              eq_refl eq_refl Hinv) as (r' & w' & Hrep & Herr).
  - destruct Hrange0 as (Hne0 & _). destruct (chunks s0); [contradiction|].
    unfold len. cbn [length]. lia.
  - lia.
  - reflexivity.
  - unfold rest_from, segs. cbn [lookup list_lookup drop app]. exact Hfuel.
  - exists r', w'. split.
    + rewrite with_heap_id in Hrep.
      assert (Hfirst : forall f, Reader_Next f NewReader w
                                 = Reader_Next f (mkReader 0 (Some a0) None) w).
      { intros f. unfold Reader_Next. cbn [r_seg NewReader NewReaderOffset r_off r_err].
        unfold Reader_loadSegment, bind. cbn [Sink_LoadSegment MemorySink_Sink].
        unfold MemorySink_LoadSegment, bind, get_sink. rewrite Hsink.
        reflexivity. }
      destruct fuel as [|fuel]; [lia|].
      cbn [replay] in *. unfold bind at 1. unfold bind at 1 in Hrep.
      rewrite Hfirst. exact Hrep.
    + unfold Reader_Error. rewrite Herr. reflexivity.
Qed.

(** C5, amended.  Replaying, from [ZeroOffset], an in-memory sink that
    holds at least one segment, all of them unread, non-empty, with
    offsets from 0 to below the largest [int64], oldest offset not after
    the newest, and every segment's newest offset strictly below the next
    segment's oldest: the replay loop ends (with enough fuel), has shown
    exactly the chunks of the segments, in the order they were written,
    and the reader's [Error()] is [nil]. *)
Theorem C5_replay_MemorySink (w : World MemorySink) (addrs : list nat)
    (segs : list Segment) (fuel : nat) :
  sink_holds w addrs segs ->
  NoDup addrs ->
  segs <> [] ->
  Forall unread segs ->
  Forall range_ok segs ->
  boundaries_increase segs ->
  (length (concat (map chunks segs)) + 2 <= fuel)%nat ->
  exists r w',
    replay fuel NewReader w
    = Ok ((map entry_of (concat (map chunks segs)), r), w')
    /\ Reader_Error r = None.
Proof. exact (replay_MemorySink_all w addrs segs fuel). Qed.

Lemma C5_replay_MemorySink_witness :
  let w := mkWorld [mkSegment 64 [newChunkOffset [x61] 1; newChunkOffset [x62] 1] (-1);
                    mkSegment 64 [newChunkOffset [x63] 2] (-1)]
                   (mkMemorySink [Some 0%nat; Some 1%nat]) (fun _ => 0) 0%nat in
  exists r w',
    replay 5 NewReader w
    = Ok (([(1, [x61]); (1, [x62]); (2, [x63])], r), w')
    /\ Reader_Error r = None.
Proof.
  intros w.
  refine (C5_replay_MemorySink w [0%nat; 1%nat]
            [mkSegment 64 [newChunkOffset [x61] 1; newChunkOffset [x62] 1] (-1);
             mkSegment 64 [newChunkOffset [x63] 2] (-1)] 5 _ _ _ _ _ _ _).
  - split; [reflexivity|]. split.
    + repeat constructor.
    + repeat constructor; unfold chunk_wf; vm_compute; discriminate.
  - repeat (apply NoDup_cons_2; [rewrite list_elem_of_In; cbn; intuition discriminate|]).
    apply NoDup_nil_2.
  - discriminate.
  - repeat constructor.
  - repeat constructor; try discriminate; vm_compute; congruence.
  - cbn. repeat split.
  - cbn. lia.
Defined.

(** C5 as stated fails: of two segments of one chunk each, written at
    the same offset, a replay shows the first chunk only, and ends without
    an error. *)
Lemma C5_counterexample :
  (exists r w',
      replay 5 NewReader world_collide = Ok (([(5, [x61])], r), w')
      /\ Reader_Error r = None)
  /\ ~ (exists fuel r w',
           replay fuel NewReader world_collide
           = Ok (([(5, [x61]); (5, [x62])], r), w')).
Proof.
  split.
  - eexists _, _. split; vm_compute; reflexivity.
  - intros (fuel & r & w' & H).
    destruct fuel as [|[|[|fuel]]]; vm_compute in H; discriminate.
Qed.

(** * The logger over the in-memory sink: claim C6 *)

Lemma MemorySink_WriteSegment_ok (w : World MemorySink) a seg :
  heap w !! a = Some seg -> Forall chunk_wf (chunks seg) ->
  oldest_of seg <> 0 \/ newest_of seg <> 0 ->
  MemorySink_WriteSegment (Some a) w = Ok (None, with_segment w a).
Proof.
  intros Ha Hwf Hnz. unfold MemorySink_WriteSegment.
  rewrite (bind_ok _ _ _ _ _ (Segment_Limits_ok a w seg Ha Hwf)).
  destruct (limits_of_range _ Hwf) as [Hlo Hhi].
  unfold oldest_of, newest_of in Hnz.
  destruct (limits_of (chunks seg)) as [lo hi]. cbn [fst snd] in *.
  rewrite !Offset_Equal_spec by (assumption || (unfold in_int64, ZeroOffset; lia)).
  unfold ZeroOffset.
  destruct (Z.eqb_spec lo 0); destruct (Z.eqb_spec hi 0); cbn [andb]; try reflexivity.
  lia.
Qed.

Lemma MemorySink_WriteSegment_skip (w : World MemorySink) a seg :
  heap w !! a = Some seg -> Forall chunk_wf (chunks seg) ->
  oldest_of seg = 0 -> newest_of seg = 0 ->
  MemorySink_WriteSegment (Some a) w = Ok (None, w).
Proof.
  intros Ha Hwf Hlo Hhi. unfold MemorySink_WriteSegment.
  rewrite (bind_ok _ _ _ _ _ (Segment_Limits_ok a w seg Ha Hwf)).
  unfold oldest_of, newest_of in *.
  destruct (limits_of (chunks seg)) as [lo hi]. cbn [fst snd] in *. subst.
  reflexivity.
Qed.

Lemma Logger_flush_ok (w : World MemorySink) l a sg :
  seg l = Some a ->
  heap w !! a = Some sg -> Forall chunk_wf (chunks sg) ->
  oldest_of sg <> 0 \/ newest_of sg <> 0 ->
  Logger_flush l w
  = Ok ((None, mkLogger (segSize l) (Some (length (heap w))) (closed l)),
        with_fresh (with_segment w a) (segSize l)).
Proof.
  intros Hl Ha Hwf Hnz. unfold Logger_flush. rewrite Hl.
  cbn [Sink_WriteSegment MemorySink_Sink].
  rewrite (bind_ok _ _ _ _ _ (MemorySink_WriteSegment_ok w a sg Ha Hwf Hnz)).
  reflexivity.
Qed.

Lemma Logger_Write_fits {S} `{Sink S} (w : World S) l a sg p fuel :
  seg l = Some a -> closed l = false ->
  heap w !! a = Some sg ->
  uint64 (len p) <= segSize l -> len p <> 0 -> len p <= remaining sg ->
  Logger_Write (Datatypes.S fuel) l p w = Ok (((len p, None), l), with_chunk w a sg p).
Proof.
  intros Hl Hopen Ha Hsz Hp Hfit. unfold Logger_Write.
  destruct (Z.gtb_spec (uint64 (len p)) (segSize l)); [lia|].
  rewrite Hopen. cbn [writeData]. rewrite Hl.
  unfold bind at 1. unfold bind at 1.
  rewrite (Segment_Write_accepted w a sg p Ha Hp Hfit).
  reflexivity.
Qed.

Lemma Logger_Write_rotates (w : World MemorySink) l a sg p fuel :
  seg l = Some a -> closed l = false ->
  heap w !! a = Some sg -> Forall chunk_wf (chunks sg) ->
  oldest_of sg <> 0 \/ newest_of sg <> 0 ->
  uint64 (len p) <= segSize l -> len p <> 0 -> len p > remaining sg ->
  len p <= remaining (mkSegment (segSize l) [] (-1)) ->
  Logger_Write (Datatypes.S (Datatypes.S fuel)) l p w
  = Ok (((len p, None), mkLogger (segSize l) (Some (length (heap w))) false),
        with_chunk (with_fresh (with_segment w a) (segSize l)) (length (heap w))
                   (mkSegment (segSize l) [] (-1)) p).
Proof.
  intros Hl Hopen Ha Hwf Hnz Hsz Hp Hfull Hfit. unfold Logger_Write.
  destruct (Z.gtb_spec (uint64 (len p)) (segSize l)); [lia|].
  rewrite Hopen. cbn [writeData]. rewrite Hl.
  unfold bind at 1. unfold bind at 1.
  rewrite (Segment_Write_refused w a sg p Ha Hp Hfull).
  cbn [is_ErrNotEnoughSpace].
  unfold bind at 1.
  rewrite (Logger_flush_ok w l a sg Hl Ha Hwf Hnz).
  rewrite Hopen. cbn [seg].
  unfold bind at 1.
  rewrite (Segment_Write_accepted (with_fresh (with_segment w a) (segSize l))
             (length (heap w)) (mkSegment (segSize l) [] (-1)) p).
  - reflexivity.
  - cbn [with_fresh with_segment heap]. apply list_lookup_middle. reflexivity.
  - exact Hp.
  - exact Hfit.
Qed.

Lemma Logger_Flush_ok (w : World MemorySink) l a sg :
  seg l = Some a -> closed l = false ->
  heap w !! a = Some sg -> Forall chunk_wf (chunks sg) ->
  oldest_of sg <> 0 \/ newest_of sg <> 0 ->
  Logger_Flush l w
  = Ok ((None, mkLogger (segSize l) (Some (length (heap w))) false),
        with_fresh (with_segment w a) (segSize l)).
Proof.
  intros Hl Hopen Ha Hwf Hnz. unfold Logger_Flush. rewrite Hopen.
  unfold bind at 1.
  rewrite (Logger_flush_ok w l a sg Hl Ha Hwf Hnz). rewrite Hopen.
  reflexivity.
Qed.

Lemma Logger_Close_ok (w : World MemorySink) l a sg :
  seg l = Some a -> closed l = false ->
  heap w !! a = Some sg -> Forall chunk_wf (chunks sg) ->
  oldest_of sg <> 0 \/ newest_of sg <> 0 ->
  Logger_Close l w
  = Ok ((None, mkLogger (segSize l) (Some (length (heap w))) true),
        with_fresh (with_segment w a) (segSize l)).
Proof.
  intros Hl Hopen Ha Hwf Hnz. unfold Logger_Close. rewrite Hopen.
  unfold bind at 1.
  rewrite (Logger_flush_ok w l a sg Hl Ha Hwf Hnz).
  reflexivity.
Qed.

Lemma remaining_empty sz : in_int64 sz -> 0 <= sz -> remaining (mkSegment sz [] (-1)) = sz.
Proof.
  intros Hsz Hnn. rewrite remaining_eq. cbn [size chunks rawSize fold_right].
  change (uint64 0) with 0. rewrite Z.sub_0_r.
  rewrite uint64_id by (unfold in_int64, in_uint64 in *; lia).
  apply int64_id. exact Hsz.
Qed.

Lemma limits_single c : limits_of [c] = (offset_of c, offset_of c).
Proof. reflexivity. Qed.

(** C6, amended.  A logger with segments of 20 bytes over the empty
    in-memory sink, two payloads of 15 bytes, and a clock whose first two
    readings are positive, increasing and below the largest [int64].  The
    first write fills the active segment without a flush (the sink holds
    no segment); the second finds no room, flushes once (the sink then
    holds one segment) and lands in a fresh active segment.  A reader over
    the sink at that point shows the first payload only; once the logger
    is flushed or closed, a reader shows both payloads, in order.  Every
    replay ends without an error. *)
Theorem C6_logger_overflow (clk : nat -> Z) (p1 p2 : list byte) (fuel : nat) :
  len p1 = 15 -> len p2 = 15 ->
  0 < int64 (clk 0%nat) < int64 (clk 1%nat) ->
  int64 (clk 1%nat) < MaxInt64 ->
  (2 <= fuel)%nat ->
  let t1 := int64 (clk 0%nat) in
  let t2 := int64 (clk 1%nat) in
  exists l1 w1 l2 w2,
    New [SegmentSize 20] (world0 clk) = Ok ((Some logger20, None), world20 clk)
    /\ Logger_Write fuel logger20 p1 (world20 clk) = Ok (((15, None), l1), w1)
    /\ Sink_NumSegments w1 = Ok (0, w1)
    /\ Logger_Write fuel l1 p2 w1 = Ok (((15, None), l2), w2)
    /\ Sink_NumSegments w2 = Ok (1, w2)
    /\ (exists r w',
           replay (fuel + 2) NewReader w2 = Ok (([(t1, p1)], r), w')
           /\ Reader_Error r = None)
    /\ (exists l3 w3,
           Logger_Flush l2 w2 = Ok ((None, l3), w3)
           /\ exists r w',
               replay (fuel + 2) NewReader w3 = Ok (([(t1, p1); (t2, p2)], r), w')
               /\ Reader_Error r = None)
    /\ (exists l3 w3,
           Logger_Close l2 w2 = Ok ((None, l3), w3)
           /\ exists r w',
               replay (fuel + 2) NewReader w3 = Ok (([(t1, p1); (t2, p2)], r), w')
               /\ Reader_Error r = None).
Proof.
  intros Hp1 Hp2 Ht Hmax Hfuel t1 t2.
  assert (Hr1 : in_int64 t1) by apply int64_range.
  assert (Hr2 : in_int64 t2) by apply int64_range.
  fold t1 t2 in Ht, Hmax.
  set (e := mkSegment 20 [] (-1)).
  set (c1 := newChunkOffset p1 t1). set (c2 := newChunkOffset p2 t2).
  set (s1 := mkSegment 20 [c1] (-1)). set (s2 := mkSegment 20 [c2] (-1)).
  assert (He : remaining e = 20) by (apply remaining_empty; unfold in_int64; lia).
  assert (Hs1 : remaining s1 = -3).
  { rewrite remaining_eq. cbn [s1 size chunks rawSize fold_right].
    unfold c1. rewrite len_new, Hp1. reflexivity. }
  assert (Hwf1 : Forall chunk_wf (chunks s1)) by (repeat constructor; apply newChunkOffset_wf).
  assert (Hwf2 : Forall chunk_wf (chunks s2)) by (repeat constructor; apply newChunkOffset_wf).
  assert (Ho1 : offset_of c1 = t1) by (apply offset_of_new; exact Hr1).
  assert (Ho2 : offset_of c2 = t2) by (apply offset_of_new; exact Hr2).
  assert (Hold1 : oldest_of s1 = t1 /\ newest_of s1 = t1) by (split; exact Ho1).
  assert (Hold2 : oldest_of s2 = t2 /\ newest_of s2 = t2) by (split; exact Ho2).
  destruct fuel as [|[|fuel]]; try lia.
  set (w1 := mkWorld [s1] NewMemorySink clk 1%nat).
  set (w2 := mkWorld [s1; s2] (mkMemorySink [Some 0%nat]) clk 2%nat).
  set (w3 := mkWorld [s1; s2; e] (mkMemorySink [Some 0%nat; Some 1%nat]) clk 2%nat).
  assert (Hrange1 : range_ok s1).
  { split; [discriminate|]. destruct Hold1 as [-> ->]. lia. }
  assert (Hrange2 : range_ok s2).
  { split; [discriminate|]. destruct Hold2 as [-> ->]. lia. }
  assert (Hreplay3 : exists r w',
             replay (Datatypes.S (Datatypes.S fuel) + 2) NewReader w3
             = Ok (([(t1, p1); (t2, p2)], r), w') /\ Reader_Error r = None).
  { destruct (replay_MemorySink_all w3 [0%nat; 1%nat] [s1; s2]
                (Datatypes.S (Datatypes.S fuel) + 2)) as (r & w' & Hrep & Herr).
    - split; [reflexivity|]. split; repeat constructor; apply newChunkOffset_wf.
    - repeat (apply NoDup_cons_2; [rewrite list_elem_of_In; cbn; intuition discriminate|]).
      apply NoDup_nil_2.
    - discriminate.
    - repeat constructor.
    - repeat (apply Forall_cons; [assumption|]). apply Forall_nil.
    - cbn [boundaries_increase]. destruct Hold1 as [_ ->]. destruct Hold2 as [-> _].
      repeat split. lia.
    - cbn [map chunks s1 s2 concat app length]. lia.
    - exists r, w'. split; [|exact Herr].
      rewrite Hrep. cbn [map chunks s1 s2 concat app]. unfold entry_of.
      rewrite Ho1, Ho2. unfold c1, c2. rewrite !data_of_new. reflexivity. }
  exists logger20, w1, (mkLogger 20 (Some 1%nat) false), w2.
  split; [reflexivity|].
  split.
  { rewrite <- Hp1.
    apply (Logger_Write_fits (world20 clk) logger20 0%nat e p1);
      try reflexivity; rewrite ?He, Hp1; try lia. vm_compute. discriminate. }
  split; [reflexivity|].
  split.
  { rewrite <- Hp2.
    apply (Logger_Write_rotates w1 logger20 0%nat s1 p2);
      try reflexivity; try assumption; cbn [segSize logger20]; fold e;
      rewrite ?He, ?Hs1, ?Hp2; try lia.
    vm_compute. discriminate. }
  split; [reflexivity|].
  split.
  { destruct (replay_MemorySink_all w2 [0%nat] [s1]
                (Datatypes.S (Datatypes.S fuel) + 2)) as (r & w' & Hrep & Herr).
    - split; [reflexivity|]. split; repeat constructor; apply newChunkOffset_wf.
    - repeat (apply NoDup_cons_2; [rewrite list_elem_of_In; cbn; intuition discriminate|]).
      apply NoDup_nil_2.
    - discriminate.
    - repeat constructor.
    - repeat (apply Forall_cons; [assumption|]). apply Forall_nil.
    - cbn [boundaries_increase]. repeat split.
    - cbn [map chunks s1 concat app length]. lia.
    - exists r, w'. split; [|exact Herr].
      rewrite Hrep. cbn [map chunks s1 concat app]. unfold entry_of.
      rewrite Ho1. unfold c1. rewrite !data_of_new. reflexivity. }
  split.
  - exists (mkLogger 20 (Some 2%nat) false), w3. split; [|exact Hreplay3].
    apply (Logger_Flush_ok w2 (mkLogger 20 (Some 1%nat) false) 1%nat s2);
      try reflexivity; try assumption.
    left. destruct Hold2 as [-> _]. lia.
  - exists (mkLogger 20 (Some 2%nat) true), w3. split; [|exact Hreplay3].
    apply (Logger_Close_ok w2 (mkLogger 20 (Some 1%nat) false) 1%nat s2);
      try reflexivity; try assumption.
    left. destruct Hold2 as [-> _]. lia.
Qed.

Lemma C6_logger_overflow_witness :
  len (payload15 x41) = 15 /\ len (payload15 x42) = 15
  /\ exists l1 w1 l2 w2,
      Logger_Write 2 logger20 (payload15 x41) (world20 (fun k => 100 + Z.of_nat k))
      = Ok (((15, None), l1), w1)
      /\ Logger_Write 2 l1 (payload15 x42) w1 = Ok (((15, None), l2), w2)
      /\ Sink_NumSegments w2 = Ok (1, w2)
      /\ exists l3 w3,
          Logger_Close l2 w2 = Ok ((None, l3), w3)
          /\ exists r w',
              replay 4 NewReader w3
              = Ok (([(100, payload15 x41); (101, payload15 x42)], r), w')
              /\ Reader_Error r = None.
Proof.
  split; [reflexivity|]. split; [reflexivity|].
  destruct (C6_logger_overflow (fun k => 100 + Z.of_nat k) (payload15 x41) (payload15 x42) 2
              eq_refl eq_refl
              ltac:(vm_compute; split; reflexivity)
              ltac:(vm_compute; reflexivity)
              ltac:(lia))
    as (l1 & w1 & l2 & w2 & _ & Hw1 & _ & Hw2 & Hn2 & _ & _ & Hclose).
  exists l1, w1, l2, w2.
  split; [exact Hw1|]. split; [exact Hw2|]. split; [exact Hn2|exact Hclose].
Defined.

(** C6 as stated fails: right after the two writes the second payload is
    still in the logger's active segment, and a reader over the sink
    shows the first payload only. *)
Lemma C6_counterexample :
  exists l2 w2,
    two_writes = Ok (l2, w2)
    /\ Sink_NumSegments w2 = Ok (1, w2)
    /\ (exists r w',
           replay 5 NewReader w2 = Ok (([(100, payload15 x41)], r), w')
           /\ Reader_Error r = None)
    /\ ~ (exists fuel r w',
             replay fuel NewReader w2
             = Ok (([(100, payload15 x41); (101, payload15 x42)], r), w')).
Proof.
  eexists _, _. split; [vm_compute; reflexivity|].
  split; [reflexivity|]. split.
  - eexists _, _. split; vm_compute; reflexivity.
  - intros (fuel & r & w' & H).
    destruct fuel as [|[|[|fuel]]]; vm_compute in H; discriminate.
Qed.

(** * The directory sink *)

(** ** Files *)

Lemma bytes_eqb_spec a b : bytes_eqb a b = true <-> a = b.
Proof.
  revert b. induction a as [|x a IH]; intros [|y b]; cbn; split; try discriminate; try reflexivity.
  - intros H. apply andb_true_iff in H as [Hx Ha].
    apply Byte.byte_dec_bl in Hx. apply IH in Ha. congruence.
  - intros [= -> ->]. apply andb_true_iff. split; [apply Byte.byte_dec_lb; reflexivity|].
    apply IH. reflexivity.
Qed.

Lemma bytes_eqb_refl a : bytes_eqb a a = true.
Proof. apply bytes_eqb_spec. reflexivity. Qed.







(** ** Deleting the expired segment files *)








(** * Truncating a sink: claim C3 *)




(** * Replaying a directory sink *)

(** Six payloads written through a logger with room for two per segment
    leave three segment files, 100-101, 102-103 and 104-105, each with its
    checksum file. *)
Lemma dir_logged_files :
  exists w, dir_logged = Ok (tt, w)
            /\ ds_segments (sink w) = [(100, 101); (102, 103); (104, 105)]
            /\ segPaths (sink w)
               = [bytes_of_string "100-101"; bytes_of_string "102-103";
                  bytes_of_string "104-105"]
            /\ length (disk (sink w)) = 6%nat.
Proof.
  eexists. split; [vm_compute; reflexivity|].
  repeat split.
Qed.

(** [loadSegment] builds the segment with [new(Segment)], whose read
    cursor is 0 and not the -1 of [NewSegment]; [Next] moves to index 1
    before the first [Chunk], so a replay of the directory sink shows the
    second payload of every file only. *)
Lemma dir_replay_skips_first_chunks :
  dir_replay = Ok ([(101, payload15 x42); (103, payload15 x44); (105, payload15 x46)],
                   None).
Proof. vm_compute. reflexivity. Qed.
